(** * Expense-sharing ledger (DAY29/LLDD85.CPP)

    A shallow embedding of the [Split], [User], [Group] and [Splitwise]
    classes of the expense-sharing exercise, followed by the properties
    of the group ledger.

    - [double] is IEEE-754 binary64, embedded as Rocq's primitive [float];
      every arithmetic operation of the source is the corresponding
      primitive operation, so concrete runs evaluate to the exact bits the
      program computes.
    - [std::map<string, V>] is [gmap string V]; [operator[]] on a missing
      key default-constructs the value, which is written out in [row],
      [at2], [plus_assign] and [minus_assign].  Iteration over a
      [std::map] goes by increasing key; [in_order] lists a map that way.
    - [std::vector<T>] is [list T]; [operator[]] out of range is undefined
      behaviour, so a function that indexes returns [option] and [None]
      stands for the out-of-range read.
    - [int] (the two static id counters) is a [Z] kept within 32 bits by
      [int_wrap].
    - [cout] is a list of [Line]s returned next to the new state. *)

From Stdlib Require Import ZArith Floats Uint63.
From stdpp Require Import gmap strings list fin_maps sorting pretty.

(** ** Machine numbers *)

(** [int] is 32 bits wide.  The only [int] arithmetic of the source is the
    [++] of the two static id counters; it is written here with the
    two's-complement wrap-around g++ gives it.  Past [INT_MAX] the C++
    standard leaves the increment undefined, and the properties of the
    id counters below are stated for increments below [INT_MAX]. *)
Definition INT_MAX : Z := 2147483647.

Definition int_wrap (z : Z) : Z :=
  ((z + 2147483648) mod 4294967296 - 2147483648)%Z.


Abbreviation double := float.

(** [size_t] to [double], as in [amount / users.size()]. *)
Definition size_to_double (n : nat) : double :=
  PrimFloat.of_uint63 (Uint63.of_Z (Z.of_nat n)).

(** The literal [0.01] of the source: the binary64 value nearest to 1/100. *)
Definition epsilon : double := 0x1.47ae147ae147bp-7%float.

(** ** [std::map] with [operator[]] *)

Abbreviation Row := (gmap string double).
Abbreviation Matrix := (gmap string (gmap string double)).

(** [m[a]] read: the stored row, or the default-constructed empty one. *)
Definition row (m : Matrix) (a : string) : Row := default ∅ (m !! a).

(** [m[a][b]] read: the stored amount, or the default-constructed [0.0]. *)
Definition at2 (m : Matrix) (a b : string) : double :=
  default 0%float (row m a !! b).

(** The entry as stored, [None] when the row or the column is absent. *)
Definition stored (m : Matrix) (a b : string) : option double :=
  m !! a ≫= (.!! b).

(** [m[a][b] += v] *)
Definition plus_assign (a b : string) (v : double) (m : Matrix) : Matrix :=
  <[a := <[b := (at2 m a b + v)%float]> (row m a)]> m.

(** [m[a][b] -= v] *)
Definition minus_assign (a b : string) (v : double) (m : Matrix) : Matrix :=
  <[a := <[b := (at2 m a b - v)%float]> (row m a)]> m.

(** Keys compare as [std::string]s do: lexicographically, by character code. *)
Definition key_le {V} (p q : string * V) : Prop := String.leb p.1 q.1 = true.

#[global] Instance key_le_dec {V} (p q : string * V) : Decision (key_le p q).
Proof. unfold key_le. apply _. Defined.

(** The entries of a [std::map] in iteration order. *)
Definition in_order {V} (m : gmap string V) : list (string * V) :=
  merge_sort key_le (map_to_list m).

(** ** Output *)

Inductive Line :=
| LUserCreated (name userId : string)
| LGroupCreated (name groupId : string)
| LNotFound
| LGroupNotFound
| LMemberAdded (userName groupName : string)
| LInvalidUsersInExpense
| LExpenseAdded (desc : string) (amount : double) (payerName : string)
| LInvalidUsers
| LPaid (fromName toName : string) (amount : double)
| LBalancesFor (groupName : string)
| LMember (userName : string)
| LNoBalances
| LOwes (otherName : string) (balance : double)
| LOwesTo (otherName : string) (balance : double).

(** ** [enum class SplitType] and [class Split] *)

Inductive SplitType := EQUAL | EXACT | PERCENTAGE.

Module Split.
Record t := mk { userId : string; amount : double }.
End Split.

(** ** [class User] *)

Module User.
Record t := mk { userId : string; name : string; balances : Row }.

(** [User(name)], with the static [int] counter [nextUserId] passed in and
    out; [++nextUserId] wraps around at [INT_MAX]. *)
Definition new (nextUserId : Z) (name : string) : t * Z :=
  let n := int_wrap (nextUserId + 1) in
  (mk ("user" +:+ pretty n) name ∅, n).

(** [balances[otherUserId] += amount], then the entry is erased when its
    absolute value ([std::abs(double)]) is below 0.01. *)
Definition updateBalance (u : t) (otherUserId : string) (amount : double) : t :=
  let v := (default 0%float (balances u !! otherUserId) + amount)%float in
  let b := <[otherUserId := v]> (balances u) in
  mk (userId u) (name u)
     (if (PrimFloat.abs v <? epsilon)%float then delete otherUserId b else b).
End User.

(** ** [class Group] *)

Module Group.
Record t := mk {
  groupId : string;
  name : string;
  members : list User.t;
  balances : Matrix
}.

(** [Group(name)], with the static [int] counter [nextGroupId] passed in
    and out; [++nextGroupId] wraps around at [INT_MAX]. *)
Definition new (nextGroupId : Z) (name : string) : t * Z :=
  let n := int_wrap (nextGroupId + 1) in
  (mk ("group" +:+ pretty n) name [] ∅, n).

Definition with_balances (g : t) (b : Matrix) : t :=
  mk (groupId g) (name g) (members g) b.

Definition addMember (g : t) (user : User.t) : t * list Line :=
  (mk (groupId g) (name g)
      (members g ++ [user])
      (<[User.userId user := ∅]> (balances g)),
   [LMemberAdded (User.name user) (name g)]).

Definition isMember (g : t) (userId : string) : bool :=
  bool_decide (is_Some (balances g !! userId)).

Fixpoint getUserName_loop (members : list User.t) (userId : string) : string :=
  match members with
  | [] => ""
  | user :: rest =>
      if decide (User.userId user = userId) then User.name user
      else getUserName_loop rest userId
  end.

Definition getUserName (g : t) (userId : string) : string :=
  getUserName_loop (members g) userId.

Fixpoint allMembersExist (g : t) (userIds : list string) : bool :=
  match userIds with
  | [] => true
  | userId :: rest =>
      if negb (isMember g userId) then false else allMembersExist g rest
  end.

(** The loop [for (i = 0; i < users.size(); ++i)
    splits.emplace_back(users[i], share(values[i]))] shared by the EXACT
    and PERCENTAGE branches; [values[i]] is read unchecked. *)
Definition indexed_splits (share : double → double)
    (users : list string) (values : list double) : option (list Split.t) :=
  mapM (λ i, userId ← users !! i;
             v ← values !! i;
             Some (Split.mk userId (share v)))
       (seq 0 (length users)).

Definition make_splits (amount : double) (users : list string)
    (type : SplitType) (values : list double) : option (list Split.t) :=
  match type with
  | EQUAL =>
      let splitAmount := (amount / size_to_double (length users))%float in
      Some ((λ userId, Split.mk userId splitAmount) <$> users)
  | EXACT => indexed_splits (λ v, v) users values
  | PERCENTAGE => indexed_splits (λ v, (amount * v / 100)%float) users values
  end.

(** One turn of [for (const auto& split : splits)]. *)
Definition apply_split (paidBy : string) (m : Matrix) (split : Split.t) : Matrix :=
  if decide (Split.userId split ≠ paidBy) then
    minus_assign (Split.userId split) paidBy (Split.amount split)
      (plus_assign paidBy (Split.userId split) (Split.amount split) m)
  else m.

Definition addExpense (g : t) (desc : string) (amount : double)
    (paidBy : string) (users : list string) (type : SplitType)
    (values : list double) : option (t * list Line) :=
  if negb (isMember g paidBy) || negb (allMembersExist g users) then
    Some (g, [LInvalidUsersInExpense])
  else
    splits ← make_splits amount users type values;
    let g' := with_balances g (foldl (apply_split paidBy) (balances g) splits) in
    Some (g', [LExpenseAdded desc amount (getUserName g' paidBy)]).

Definition settlePayment (g : t) (fromUserId toUserId : string)
    (amount : double) : t * list Line :=
  if negb (isMember g fromUserId) || negb (isMember g toUserId) then
    (g, [LInvalidUsers])
  else
    let g' := with_balances g
                (minus_assign toUserId fromUserId amount
                   (plus_assign fromUserId toUserId amount (balances g))) in
    (g', [LPaid (getUserName g' fromUserId) (getUserName g' toUserId) amount]).

(** What one turn of the inner loop of [showBalances] prints; [abs] is
    [std::abs(double)]. *)
Definition show_entry (g : t) (e : string * double) : list Line :=
  let '(otherId, balance) := e in
  if (0 <? balance)%float then [LOwes (getUserName g otherId) balance]
  else if (balance <? 0)%float then
    [LOwesTo (getUserName g otherId) (PrimFloat.abs balance)]
  else [].

(** What one turn of the outer loop of [showBalances] prints. *)
Definition show_member (g : t) (r : string * Row) : list Line :=
  let '(userId, userBalances) := r in
  LMember (getUserName g userId)
  :: (if decide (userBalances = ∅) then [LNoBalances] else [])
  ++ (in_order userBalances ≫= show_entry g).

Definition showBalances (g : t) : list Line :=
  LBalancesFor (name g) :: (in_order (balances g) ≫= show_member g).
End Group.

(** ** [class Splitwise] and [main] *)

Module Splitwise.
(** The singleton, together with the two static counters of [User] and
    [Group].  The maps hold [User*] and [Group*]; a user is never written
    after its construction ([User::updateBalance] has no caller), so the
    pointers to users are embedded as the users themselves, and a group is
    updated in place under its id. *)
Record t := mk {
  users : gmap string User.t;
  groups : gmap string Group.t;
  nextUserId : Z;
  nextGroupId : Z
}.

(** A run of the facade: state in, result, state and printed lines out;
    [None] is the out-of-range read of [Group::addExpense]. *)
Definition Prog (A : Type) : Type := t → option (A * t * list Line).

Definition ret {A} (a : A) : Prog A := λ s, Some (a, s, []).

Definition bind {A B} (c : Prog A) (k : A → Prog B) : Prog B := λ s,
  match c s with
  | None => None
  | Some (a, s1, out1) =>
      match k a s1 with
      | None => None
      | Some (b, s2, out2) => Some (b, s2, out1 ++ out2)
      end
  end.

Notation "'call' x <- c ;; k" := (bind c (λ x, k))
  (at level 10, x name, c at level 99, k at level 200).
Notation "'run' c ;; k" := (bind c (λ _, k))
  (at level 10, c at level 99, k at level 200).

(** [getInstance()] at first use. *)
Definition getInstance : t := mk ∅ ∅ 0 0.

Definition createUser (name : string) : Prog User.t := λ s,
  let '(user, n) := User.new (nextUserId s) name in
  Some (user,
        mk (<[User.userId user := user]> (users s)) (groups s) n (nextGroupId s),
        [LUserCreated name (User.userId user)]).

Definition createGroup (name : string) : Prog Group.t := λ s,
  let '(group, n) := Group.new (nextGroupId s) name in
  Some (group,
        mk (users s) (<[Group.groupId group := group]> (groups s)) (nextUserId s) n,
        [LGroupCreated name (Group.groupId group)]).

Definition set_group (s : t) (groupId : string) (g : Group.t) : t :=
  mk (users s) (<[groupId := g]> (groups s)) (nextUserId s) (nextGroupId s).

Definition addUserToGroup (userId groupId : string) : Prog unit := λ s,
  match users s !! userId, groups s !! groupId with
  | Some user, Some group =>
      let '(group', out) := Group.addMember group user in
      Some (tt, set_group s groupId group', out)
  | _, _ => Some (tt, s, [LNotFound])
  end.

Definition addExpense (groupId desc : string) (amount : double)
    (paidBy : string) (users : list string) (type : SplitType)
    (values : list double) : Prog unit := λ s,
  match groups s !! groupId with
  | Some group =>
      '(group', out) ← Group.addExpense group desc amount paidBy users type values;
      Some (tt, set_group s groupId group', out)
  | None => Some (tt, s, [LGroupNotFound])
  end.

Definition settlePayment (groupId fromUserId toUserId : string)
    (amount : double) : Prog unit := λ s,
  match groups s !! groupId with
  | Some group =>
      let '(group', out) := Group.settlePayment group fromUserId toUserId amount in
      Some (tt, set_group s groupId group', out)
  | None => Some (tt, s, [LGroupNotFound])
  end.

Definition showGroupBalances (groupId : string) : Prog unit := λ s,
  match groups s !! groupId with
  | Some group => Some (tt, s, Group.showBalances group)
  | None => Some (tt, s, [LGroupNotFound])
  end.

(** [main] up to and including the Lunch expense; [rest] is what follows,
    with the local variables it reads. *)
Definition main_upto_lunch {A}
    (rest : Group.t → User.t → User.t → User.t → User.t → Prog A) : Prog A :=
  call user1 <- createUser "Aditya" ;;
  call user2 <- createUser "Rohit" ;;
  call user3 <- createUser "Manish" ;;
  call user4 <- createUser "Saurav" ;;
  call group <- createGroup "Hostel Expenses" ;;
  run addUserToGroup (User.userId user1) (Group.groupId group) ;;
  run addUserToGroup (User.userId user2) (Group.groupId group) ;;
  run addUserToGroup (User.userId user3) (Group.groupId group) ;;
  run addUserToGroup (User.userId user4) (Group.groupId group) ;;
  let members := User.userId <$> [user1; user2; user3; user4] in
  run addExpense (Group.groupId group) "Lunch" 800 (User.userId user1)
        members EQUAL [] ;;
  rest group user1 user2 user3 user4.

Definition main : Prog Z :=
  main_upto_lunch (λ group user1 user2 user3 user4,
    let dinnerMembers := User.userId <$> [user1; user3; user4] in
    let dinnerAmounts := [200; 300; 200]%float in
    run addExpense (Group.groupId group) "Dinner" 700 (User.userId user3)
          dinnerMembers EXACT dinnerAmounts ;;
    run showGroupBalances (Group.groupId group) ;;
    run settlePayment (Group.groupId group) (User.userId user2)
          (User.userId user3) 200 ;;
    run showGroupBalances (Group.groupId group) ;;
    ret 0%Z).
End Splitwise.

(** ** States reachable through the public operations of a group *)

(** [reachable_with guard g]: [g] is obtained from a freshly constructed
    group by [addMember], [addExpense] and [settlePayment], every
    [addMember g u] on the way satisfying [guard g u]. *)
Inductive reachable_with (guard : Group.t → User.t → Prop) : Group.t → Prop :=
| reach_new n name :
    reachable_with guard (Group.new n name).1
| reach_addMember g user :
    reachable_with guard g → guard g user →
    reachable_with guard (Group.addMember g user).1
| reach_addExpense g desc amount paidBy users type values g' out :
    reachable_with guard g →
    Group.addExpense g desc amount paidBy users type values = Some (g', out) →
    reachable_with guard g'
| reach_settlePayment g fromUserId toUserId amount :
    reachable_with guard g →
    reachable_with guard (Group.settlePayment g fromUserId toUserId amount).1.

(** Any sequence of the public operations. *)
Definition reachable : Group.t → Prop := reachable_with (λ _ _, True).

(** Sequences that add a user only when it is not a member yet. *)
Definition reachable_fresh : Group.t → Prop :=
  reachable_with (λ g user, Group.isMember g (User.userId user) = false).

(** ** Vocabulary of the properties *)

(** [x] is zero within the tolerance: [|x| <= 0.01]. *)
Definition within_tolerance (x : double) : bool :=
  (PrimFloat.abs x <=? epsilon)%float.

(** [y] is the negation of [x], up to the sign of a zero. *)
Definition SFmirrored (x y : spec_float) : Prop :=
  match x, y with
  | S754_zero _, S754_zero _ => True
  | S754_infinity s, S754_infinity s' => s' = negb s
  | S754_nan, S754_nan => True
  | S754_finite s m e, S754_finite s' m' e' => s' = negb s ∧ m' = m ∧ e' = e
  | _, _ => False
  end.

Definition mirrored (x y : double) : Prop :=
  SFmirrored (Prim2SF x) (Prim2SF y).

(** Every entry off the diagonal is the negation of its mirror entry. *)
Definition antisymmetric (m : Matrix) : Prop :=
  ∀ A B, A ≠ B → mirrored (at2 m A B) (at2 m B A).

(** An expense or settlement was turned down: nothing but the message. *)
Definition expense_rejected (out : list Line) : Prop :=
  out = [LInvalidUsersInExpense].

Definition settlement_rejected (out : list Line) : Prop :=
  out = [LInvalidUsers].

(** A balance line, as opposed to a header. *)
Definition is_balance_line (l : Line) : bool :=
  match l with
  | LOwes _ _ | LOwesTo _ _ => true
  | _ => false
  end.

(** ** Scenarios *)

Definition user_a : User.t := (User.new 0 "a").1.
Definition user_b : User.t := (User.new 1 "b").1.
Definition a : string := User.userId user_a.
Definition b : string := User.userId user_b.

(** A group with the two members [a] and [b] and no expense yet. *)
Definition group_ab : Group.t :=
  (Group.addMember (Group.addMember (Group.new 0 "G").1 user_a).1 user_b).1.

(** [group_ab] after [a] paid 100 for [b]. *)
Definition group_ab_100 : option (Group.t * list Line) :=
  Group.addExpense group_ab "Taxi" 100 a [b] EQUAL [].

(** The group of [main] after the Lunch expense. *)
Definition group_lunch : option Group.t :=
  '(groupId, s, _) ← Splitwise.main_upto_lunch
                       (λ group _ _ _ _, Splitwise.ret (Group.groupId group))
                       Splitwise.getInstance;
  Splitwise.groups s !! groupId.

(** [group_ab] after the settlement [a] to [b] of -50. *)
Definition group_ab_settled_neg : Group.t * list Line :=
  Group.settlePayment group_ab a b (-50).

(** [group_ab] after [a] paid 100 for [b]: the state alone. *)
Definition group_ab_paid : Group.t :=
  default group_ab (fst <$> group_ab_100).

(** [a] is added to [group_ab_paid] a second time. *)
Definition group_ab_readded : Group.t :=
  (Group.addMember group_ab_paid user_a).1.

(** [a] pays 100 and lists [b] twice. *)
Definition group_ab_twice : option (Group.t * list Line) :=
  Group.addExpense group_ab "Twice" 100 a [b; b] EQUAL [].

(** Scenario 5: exact amounts that add up to 90 for a total of 100. *)
Definition group_ab_bad : option (Group.t * list Line) :=
  Group.addExpense group_ab "Bad" 100 a [a; b] EXACT [40; 50]%float.

(** [a] pays 1/128 for [b]. *)
Definition group_ab_gum : Group.t :=
  default group_ab
    (fst <$> Group.addExpense group_ab "Gum" 0.0078125 a [b] EQUAL []).

(** Scenario 4: 1000 paid by [a], 40% for [a] and 60% for [b]. *)
Definition group_ab_trip : option (Group.t * list Line) :=
  Group.addExpense group_ab "Trip" 1000 a [a; b] PERCENTAGE [40; 60]%float.

(** [a] pays 2^1023 for [b], once and then a second time. *)
Definition huge : double := 0x1p1023%float.

Definition group_ab_huge1 : Group.t :=
  default group_ab (fst <$> Group.addExpense group_ab "Huge" huge a [b] EQUAL []).

Definition group_ab_huge2 : Group.t :=
  default group_ab
    (fst <$> Group.addExpense group_ab_huge1 "Huge" huge a [b] EQUAL []).

(** ** Vocabulary of the further properties *)

(** No stored amount of a per-user map is below the threshold. *)
Definition no_small_entry (r : Row) : Prop :=
  ∀ k v, r !! k = Some v → (abs v <? epsilon)%float = false.

(** No entry [bal[x][x]] is stored. *)
Definition no_self_debt (m : Matrix) : Prop := ∀ x, stored m x x = None.

(** One call of a public operation of a group that returns. *)
Inductive group_step : Group.t → Group.t → Prop :=
| step_addMember g user :
    group_step g (Group.addMember g user).1
| step_addExpense g desc amount paidBy users type values g' out :
    Group.addExpense g desc amount paidBy users type values = Some (g', out) →
    group_step g g'
| step_settlePayment g fromUserId toUserId amount :
    group_step g (Group.settlePayment g fromUserId toUserId amount).1.

(** The member headers of a listing, in the order they are printed. *)
Definition member_headers (out : list Line) : list string :=
  omap (λ l, if l is LMember userName then Some userName else None) out.

(** The lines of a listing up to the next member header. *)
Fixpoint until_header (out : list Line) : list Line :=
  match out with
  | [] => []
  | LMember _ :: _ => []
  | l :: rest => l :: until_header rest
  end.

(** A listing cut at its member headers: every header, in the order
    printed, with the lines printed under it. *)
Fixpoint sections (out : list Line) : list (string * list Line) :=
  match out with
  | [] => []
  | LMember userName :: rest => (userName, until_header rest) :: sections rest
  | _ :: rest => sections rest
  end.

(** The states of the facade: [getInstance()] at first use, then any
    sequence of calls of its public functions that return, [createUser]
    and [createGroup] being called with their counter below [INT_MAX],
    where its increment is defined. *)
Inductive facade_reachable : Splitwise.t → Prop :=
| facade_init : facade_reachable Splitwise.getInstance
| facade_createUser s name user s' out :
    facade_reachable s →
    (Splitwise.nextUserId s < INT_MAX)%Z →
    Splitwise.createUser name s = Some (user, s', out) →
    facade_reachable s'
| facade_createGroup s name group s' out :
    facade_reachable s →
    (Splitwise.nextGroupId s < INT_MAX)%Z →
    Splitwise.createGroup name s = Some (group, s', out) →
    facade_reachable s'
| facade_addUserToGroup s userId groupId s' out :
    facade_reachable s →
    Splitwise.addUserToGroup userId groupId s = Some (tt, s', out) →
    facade_reachable s'
| facade_addExpense s groupId desc amount paidBy users type values s' out :
    facade_reachable s →
    Splitwise.addExpense groupId desc amount paidBy users type values s =
      Some (tt, s', out) →
    facade_reachable s'
| facade_settlePayment s groupId fromUserId toUserId amount s' out :
    facade_reachable s →
    Splitwise.settlePayment groupId fromUserId toUserId amount s =
      Some (tt, s', out) →
    facade_reachable s'
| facade_showGroupBalances s groupId s' out :
    facade_reachable s →
    Splitwise.showGroupBalances groupId s = Some (tt, s', out) →
    facade_reachable s'.

(** [s'] is [s] but for the group stored under [groupId], which is still
    stored when it was. *)
Definition same_but_group (groupId : string) (s s' : Splitwise.t) : Prop :=
  Splitwise.users s' = Splitwise.users s ∧
  Splitwise.nextUserId s' = Splitwise.nextUserId s ∧
  Splitwise.nextGroupId s' = Splitwise.nextGroupId s ∧
  (∀ id, id ≠ groupId → Splitwise.groups s' !! id = Splitwise.groups s !! id) ∧
  (is_Some (Splitwise.groups s' !! groupId) ↔
   is_Some (Splitwise.groups s !! groupId)).

(** Every stored user and group sits under its own id, and the ids are
    those the two counters have issued so far. *)
Definition ids_issued (s : Splitwise.t) : Prop :=
  (0 ≤ Splitwise.nextUserId s ≤ INT_MAX)%Z ∧
  (0 ≤ Splitwise.nextGroupId s ≤ INT_MAX)%Z ∧
  (∀ id user, Splitwise.users s !! id = Some user →
     User.userId user = id ∧
     ∃ k, (1 ≤ k ≤ Splitwise.nextUserId s)%Z ∧ id = "user" +:+ pretty k) ∧
  (∀ id group, Splitwise.groups s !! id = Some group →
     Group.groupId group = id ∧
     ∃ k, (1 ≤ k ≤ Splitwise.nextGroupId s)%Z ∧ id = "group" +:+ pretty k).

(** The members of every group are users of the registry. *)
Definition members_registered (s : Splitwise.t) : Prop :=
  ∀ id group user,
    Splitwise.groups s !! id = Some group → user ∈ Group.members group →
    Splitwise.users s !! User.userId user = Some user.

(** The facade of [main] after the Lunch expense. *)
Definition facade_lunch : Splitwise.t :=
  default Splitwise.getInstance
    ((λ r, r.1.2) <$> Splitwise.main_upto_lunch
                        (λ _ _ _ _ _, Splitwise.ret tt) Splitwise.getInstance).

(** ** Iteration order of [std::map] *)

Lemma ascii_compare_trans c1 c2 c3 o :
  Ascii.compare c1 c2 = o → Ascii.compare c2 c3 = o → Ascii.compare c1 c3 = o.
Proof.
  unfold Ascii.compare. intros H1 H2. destruct o.
  - rewrite N.compare_eq_iff in H1, H2 |- *. congruence.
  - rewrite N.compare_lt_iff in H1, H2 |- *. lia.
  - rewrite N.compare_gt_iff in H1, H2 |- *. lia.
Qed.

Lemma string_compare_not_Gt_trans s1 s2 s3 :
  String.compare s1 s2 ≠ Gt → String.compare s2 s3 ≠ Gt →
  String.compare s1 s3 ≠ Gt.
Proof.
  revert s2 s3. induction s1 as [|c1 s1 IH]; intros [|c2 s2] [|c3 s3]; simpl; try done.
  destruct (Ascii.compare c1 c2) eqn:H12; [| |done];
    destruct (Ascii.compare c2 c3) eqn:H23; try done.
  - rewrite (ascii_compare_trans _ _ _ _ H12 H23). apply IH.
  - apply Ascii.compare_eq_iff in H12 as ->. by rewrite H23.
  - apply Ascii.compare_eq_iff in H23 as ->. by rewrite H12.
  - by rewrite (ascii_compare_trans _ _ _ _ H12 H23).
Qed.

#[global] Instance key_le_trans {V} : Transitive (@key_le V).
Proof.
  intros p q r. unfold key_le, String.leb. intros H1 H2.
  pose proof (string_compare_not_Gt_trans p.1 q.1 r.1) as H.
  destruct (String.compare p.1 q.1), (String.compare q.1 r.1),
    (String.compare p.1 r.1); try done; by destruct H.
Qed.

#[global] Instance key_le_total {V} : Total (@key_le V).
Proof. intros p q. apply String.leb_total. Qed.

(** [in_order] lists the entries by increasing key. *)
Lemma in_order_sorted {V} (m : gmap string V) :
  StronglySorted key_le (in_order m).
Proof. apply (StronglySorted_merge_sort _). Qed.

Lemma elem_of_in_order {V} (m : gmap string V) k v :
  (k, v) ∈ in_order m ↔ m !! k = Some v.
Proof.
  unfold in_order. rewrite merge_sort_Permutation.
  apply elem_of_map_to_list.
Qed.

Lemma in_order_NoDup_keys {V} (m : gmap string V) : NoDup (in_order m).*1.
Proof.
  unfold in_order. rewrite merge_sort_Permutation.
  apply NoDup_fst_map_to_list.
Qed.

(** ** The debt matrix under [+=] and [-=] *)

(** Settles the case analysis on which entry a write hits. *)
Ltac entry_cases :=
  repeat case_decide; destruct_and?; simplify_eq; try done;
  try (exfalso; intuition congruence).

Section matrix.
Implicit Types (m : Matrix) (v : double).

Lemma at2_stored m x y : at2 m x y = default 0%float (stored m x y).
Proof. unfold at2, row, stored. by destruct (m !! x). Qed.

Lemma stored_row m x y : stored m x y = row m x !! y.
Proof. unfold stored, row. by destruct (m !! x). Qed.

Lemma stored_insert_row (f : Row → double) m p q x y :
  stored (<[p := <[q := f (row m p)]> (row m p)]> m) x y =
  if decide (x = p ∧ y = q) then Some (f (row m p)) else stored m x y.
Proof.
  rewrite !stored_row. unfold row at 1.
  destruct (decide (x = p)) as [->|Hx].
  - rewrite lookup_insert_eq. simpl.
    destruct (decide (y = q)) as [->|Hy].
    + rewrite lookup_insert_eq. by rewrite decide_True.
    + rewrite lookup_insert_ne by done. by rewrite decide_False by (intros [_ ?]; done).
  - rewrite lookup_insert_ne by done. by rewrite decide_False by (intros [? _]; done).
Qed.

Lemma stored_plus_assign m p q v x y :
  stored (plus_assign p q v m) x y =
  if decide (x = p ∧ y = q) then Some (at2 m p q + v)%float else stored m x y.
Proof.
  unfold plus_assign, at2.
  apply (stored_insert_row (λ r, (default 0%float (r !! q) + v)%float)).
Qed.

Lemma stored_minus_assign m p q v x y :
  stored (minus_assign p q v m) x y =
  if decide (x = p ∧ y = q) then Some (at2 m p q - v)%float else stored m x y.
Proof.
  unfold minus_assign, at2.
  apply (stored_insert_row (λ r, (default 0%float (r !! q) - v)%float)).
Qed.

Lemma at2_plus_assign m p q v x y :
  at2 (plus_assign p q v m) x y =
  if decide (x = p ∧ y = q) then (at2 m p q + v)%float else at2 m x y.
Proof. rewrite (at2_stored _ x y), stored_plus_assign. case_decide; [done|]. by rewrite at2_stored. Qed.

Lemma at2_minus_assign m p q v x y :
  at2 (minus_assign p q v m) x y =
  if decide (x = p ∧ y = q) then (at2 m p q - v)%float else at2 m x y.
Proof. rewrite (at2_stored _ x y), stored_minus_assign. case_decide; [done|]. by rewrite at2_stored. Qed.

(** [+=] and [-=] create the row they write to and no other. *)
Lemma lookup_plus_assign_is_Some m p q v x :
  is_Some (plus_assign p q v m !! x) ↔ x = p ∨ is_Some (m !! x).
Proof.
  unfold plus_assign. destruct (decide (x = p)) as [->|].
  - rewrite lookup_insert_eq. split; [by left | by eauto].
  - rewrite lookup_insert_ne by done. split; [by right | by intros [?|?]].
Qed.

Lemma lookup_minus_assign_is_Some m p q v x :
  is_Some (minus_assign p q v m !! x) ↔ x = p ∨ is_Some (m !! x).
Proof.
  unfold minus_assign. destruct (decide (x = p)) as [->|].
  - rewrite lookup_insert_eq. split; [by left | by eauto].
  - rewrite lookup_insert_ne by done. split; [by right | by intros [?|?]].
Qed.
End matrix.

(** ** Membership *)

Lemma isMember_true g x :
  Group.isMember g x = true ↔ is_Some (Group.balances g !! x).
Proof. unfold Group.isMember. apply bool_decide_eq_true. Qed.

Lemma isMember_false g x :
  Group.isMember g x = false ↔ Group.balances g !! x = None.
Proof.
  unfold Group.isMember. rewrite bool_decide_eq_false.
  by rewrite eq_None_not_Some.
Qed.

Lemma allMembersExist_true g users :
  Group.allMembersExist g users = true ↔
  ∀ u, u ∈ users → Group.isMember g u = true.
Proof.
  induction users as [|u users IH]; simpl.
  - split; [|done]. intros _ u Hu. by apply elem_of_nil in Hu.
  - destruct (Group.isMember g u) eqn:Hu; simpl.
    + rewrite IH. split.
      * intros H x [->|Hx]%elem_of_cons; auto.
      * intros H x Hx. apply H. by right.
    + split; [done|]. intros H.
      rewrite <- Hu. apply H. by left.
Qed.

Lemma allMembersExist_false g users :
  Group.allMembersExist g users = false ↔
  ∃ u, u ∈ users ∧ Group.isMember g u = false.
Proof.
  induction users as [|u users IH]; simpl.
  - split; [done|]. intros (u & Hu & _). by apply elem_of_nil in Hu.
  - destruct (Group.isMember g u) eqn:Hu; simpl.
    + rewrite IH. split.
      * intros (x & Hx & Hm). exists x. split; [by right|done].
      * intros (x & [->|Hx]%elem_of_cons & Hm); [congruence|eauto].
    + split; [|done]. intros _. exists u. split; [by left|done].
Qed.

Lemma with_balances_id g : Group.with_balances g (Group.balances g) = g.
Proof. by destruct g. Qed.

(** The guard of [addExpense], read as a proposition. *)
Lemma addExpense_guard g paidBy users :
  negb (Group.isMember g paidBy) || negb (Group.allMembersExist g users) = false ↔
  Group.isMember g paidBy = true ∧ ∀ u, u ∈ users → Group.isMember g u = true.
Proof.
  rewrite orb_false_iff, !negb_false_iff.
  by rewrite allMembersExist_true.
Qed.

Lemma addExpense_accepted g desc amount paidBy users type values :
  Group.isMember g paidBy = true →
  (∀ u, u ∈ users → Group.isMember g u = true) →
  Group.addExpense g desc amount paidBy users type values =
  splits ← Group.make_splits amount users type values;
  Some (Group.with_balances g
          (foldl (Group.apply_split paidBy) (Group.balances g) splits),
        [LExpenseAdded desc amount (Group.getUserName g paidBy)]).
Proof.
  intros Hp Hu. unfold Group.addExpense.
  by rewrite (proj2 (addExpense_guard g paidBy users) (conj Hp Hu)).
Qed.

(** ** The unchecked reads of [values] *)

Lemma indexed_splits_is_Some share users values :
  is_Some (Group.indexed_splits share users values) ↔
  length users ≤ length values.
Proof.
  unfold Group.indexed_splits.
  rewrite mapM_is_Some, Forall_seq. split.
  - intros H. destruct (decide (length users = 0)) as [->|Hn]; [lia|].
    specialize (H (length users - 1)). simpl in H.
    destruct (users !! (length users - 1)) as [u|] eqn:Hu; simpl in H.
    + destruct (values !! (length users - 1)) eqn:Hv; simpl in H.
      * apply lookup_lt_Some in Hv. lia.
      * destruct H as [? H]; [lia|done].
    + apply lookup_ge_None in Hu. lia.
  - intros Hle i [_ Hi]. simpl in *.
    destruct (lookup_lt_is_Some_2 users i) as [u ->]; [lia|].
    destruct (lookup_lt_is_Some_2 values i) as [v ->]; [lia|].
    simpl. eauto.
Qed.

Lemma indexed_splits_zip share users values :
  length users ≤ length values →
  Group.indexed_splits share users values =
  Some (zip_with (λ u v, Split.mk u (share v)) users values).
Proof.
  intros Hle. unfold Group.indexed_splits.
  apply mapM_Some, Forall2_same_length_lookup_2.
  - rewrite length_seq, length_zip_with. lia.
  - intros i j s [-> Hi]%lookup_seq Hs. simpl.
    apply lookup_zip_with_Some in Hs as (u & v & -> & -> & ->).
    done.
Qed.

Lemma make_splits_None amount users type values :
  Group.make_splits amount users type values = None ↔
  type ≠ EQUAL ∧ length values < length users.
Proof.
  rewrite eq_None_not_Some.
  destruct type; simpl.
  - split; [intros []; eauto | intros [? _]; done].
  - rewrite indexed_splits_is_Some. split; [split; [done|lia] | intros [_ ?]; lia].
  - rewrite indexed_splits_is_Some. split; [split; [done|lia] | intros [_ ?]; lia].
Qed.

(** ** The loop over the splits *)

Section splits.
Implicit Types (m : Matrix) (s : Split.t) (splits : list Split.t).

(** One turn, entry by entry. *)
Lemma stored_apply_split p m s x y :
  stored (Group.apply_split p m s) x y =
  if decide (Split.userId s = p) then stored m x y
  else if decide (x = p ∧ y = Split.userId s) then
    Some (at2 m p (Split.userId s) + Split.amount s)%float
  else if decide (x = Split.userId s ∧ y = p) then
    Some (at2 m (Split.userId s) p - Split.amount s)%float
  else stored m x y.
Proof.
  unfold Group.apply_split. destruct s as [q v]; simpl.
  destruct (decide (q = p)) as [->|Hq].
  - by rewrite decide_False by auto.
  - rewrite decide_True by done.
    rewrite stored_minus_assign, at2_plus_assign, stored_plus_assign.
    rewrite (decide_False (P := q = p ∧ p = q)) by (intros [? _]; done).
    destruct (decide (x = p ∧ y = q)) as [[-> ->]|Hxy].
    + by rewrite decide_False by (intros [? _]; done).
    + done.
Qed.

Lemma at2_apply_split p m s x y :
  at2 (Group.apply_split p m s) x y =
  if decide (Split.userId s = p) then at2 m x y
  else if decide (x = p ∧ y = Split.userId s) then
    (at2 m p (Split.userId s) + Split.amount s)%float
  else if decide (x = Split.userId s ∧ y = p) then
    (at2 m (Split.userId s) p - Split.amount s)%float
  else at2 m x y.
Proof.
  rewrite (at2_stored _ x y), stored_apply_split.
  repeat case_decide; by rewrite ?at2_stored.
Qed.

(** A pair that no split names keeps its entry through the whole loop. *)
Lemma stored_foldl_untouched p splits m x y :
  (∀ s, s ∈ splits → Split.userId s ≠ p →
        ¬ (x = p ∧ y = Split.userId s) ∧ ¬ (x = Split.userId s ∧ y = p)) →
  stored (foldl (Group.apply_split p) m splits) x y = stored m x y.
Proof.
  revert m. induction splits as [|s splits IH]; intros m H; simpl; [done|].
  rewrite IH by (intros s' Hs'; apply H; by right).
  rewrite stored_apply_split.
  destruct (decide (Split.userId s = p)) as [|Hs]; [done|].
  destruct (H s) as [H1 H2]; [by left|done|].
  by rewrite !decide_False.
Qed.

(** With each participant named once, a split is applied exactly once to
    the pair of its participant and the payer. *)
Lemma stored_foldl_touched p splits m s :
  NoDup (Split.userId <$> splits) →
  s ∈ splits → Split.userId s ≠ p →
  stored (foldl (Group.apply_split p) m splits) p (Split.userId s) =
    Some (at2 m p (Split.userId s) + Split.amount s)%float ∧
  stored (foldl (Group.apply_split p) m splits) (Split.userId s) p =
    Some (at2 m (Split.userId s) p - Split.amount s)%float.
Proof.
  revert m. induction splits as [|s0 splits IH]; intros m Hnd Hs Hp.
  { by apply elem_of_nil in Hs. }
  rewrite fmap_cons in Hnd. apply NoDup_cons in Hnd as [Hfresh Hnd].
  simpl. apply elem_of_cons in Hs as [->|Hs].
  - assert (∀ s', s' ∈ splits → Split.userId s' ≠ Split.userId s0) as Hne.
    { intros s' Hs' Heq. apply Hfresh. rewrite <- Heq.
      by apply list_elem_of_fmap_2. }
    rewrite !stored_foldl_untouched.
    + rewrite !stored_apply_split.
      rewrite !(decide_False (P := Split.userId s0 = p)) by done.
      rewrite decide_True by done.
      rewrite decide_False by (intros [? _]; done).
      by rewrite decide_True by done.
    + intros s' Hs' _. specialize (Hne s' Hs').
      split; intros [? ?]; congruence.
    + intros s' Hs' _. specialize (Hne s' Hs').
      split; intros [? ?]; congruence.
  - assert (Split.userId s ≠ Split.userId s0) as Hne.
    { intros Heq. apply Hfresh. rewrite <- Heq.
      by apply list_elem_of_fmap_2. }
    destruct (IH (Group.apply_split p m s0) Hnd Hs Hp) as [-> ->].
    rewrite !at2_apply_split.
    destruct (decide (Split.userId s0 = p)); [done|].
    rewrite !decide_False; first done.
    all: intros [? ?]; congruence.
Qed.

(** The loop creates no row: it writes to rows of members only. *)
Lemma lookup_foldl_is_Some p splits m x :
  is_Some (m !! p) →
  (∀ s, s ∈ splits → is_Some (m !! Split.userId s)) →
  is_Some (foldl (Group.apply_split p) m splits !! x) ↔ is_Some (m !! x).
Proof.
  revert m. induction splits as [|s splits IH]; intros m Hp Hs; simpl; [done|].
  assert (∀ z, is_Some (Group.apply_split p m s !! z) ↔ is_Some (m !! z)) as Hstep.
  { intros z. unfold Group.apply_split. case_decide; [|done].
    rewrite lookup_minus_assign_is_Some, lookup_plus_assign_is_Some.
    split; [|by auto].
    intros [->|[->|?]]; [apply Hs; by left|done|done]. }
  rewrite IH.
  - apply Hstep.
  - by apply Hstep.
  - intros s' Hs'. apply Hstep, Hs. by right.
Qed.
End splits.

(** ** Binary64 arithmetic

    The facts about [double] that the ledger relies on, proved from the
    specification of the primitive operations. *)

Section binary64.
(** Rounding to nearest-even does not look at the sign. *)
Lemma binary_round_aux_mirrored s m e l :
  SFmirrored (binary_round_aux prec emax s m e l)
             (binary_round_aux prec emax (negb s) m e l).
Proof.
  unfold binary_round_aux.
  destruct (shr_fexp prec emax m e l) as [mrs' e'].
  destruct (shr_fexp _ _ _ _ _) as [mrs'' e''].
  destruct (shr_m mrs''); simpl; try done.
  destruct (IntDef.Z.leb _ _); simpl; done.
Qed.

Lemma binary_normalize_mirrored z e :
  SFmirrored (binary_normalize prec emax z e false)
             (binary_normalize prec emax (- z) e false).
Proof.
  destruct z as [|p|p]; simpl; [done| |].
  - unfold binary_round. destruct (shl_align _ _ _).
    apply (binary_round_aux_mirrored false).
  - unfold binary_round. destruct (shl_align _ _ _).
    apply (binary_round_aux_mirrored true).
Qed.

(** [x += v] and [y -= v] keep [y] the negation of [x]. *)
Lemma SFmirrored_add_sub x y v :
  SFmirrored x y → SFmirrored (SF64add x v) (SF64sub y v).
Proof.
  unfold SF64add, SF64sub. intros H.
  destruct x as [sx|sx| |sx mx ex], y as [sy|sy| |sy my ey];
    simpl in H; try done;
    destruct v as [sv|sv| |sv mv ev]; simpl; try done.
  all: try (destruct H as (-> & -> & ->)); subst.
  all: try (by repeat match goal with b : bool |- _ => destruct b end).
  set (ez := IntDef.Z.min ex ev).
  match goal with |- SFmirrored (binary_normalize _ _ ?a _ _) (binary_normalize _ _ ?b _ _) =>
    replace b with (- a)%Z end.
  - apply binary_normalize_mirrored.
  - generalize (Z.pos (shl_align mx ex ez).1) (Z.pos (shl_align mv ev ez).1).
    intros P Q. unfold cond_Zopp.
    change IntDef.Z.add with Z.add. change IntDef.Z.sub with Z.sub.
    change IntDef.Z.opp with Z.opp.
    destruct sx, sv; cbn [negb]; lia.
Qed.

(** A finite amount and its negation add up to a zero. *)
Lemma SFmirrored_finite_sum x y :
  SFmirrored x y →
  (∀ s, x ≠ S754_infinity s) → x ≠ S754_nan →
  ∃ s, SF64add x y = S754_zero s.
Proof.
  unfold SF64add. intros H Hinf Hnan.
  destruct x as [sx|sx| |sx mx ex], y as [sy|sy| |sy my ey];
    simpl in H; try done.
  - simpl. destruct sx, sy; eauto.
  - by destruct (Hinf sx).
  - destruct H as (-> & -> & ->). simpl. exists false.
    match goal with |- binary_normalize _ _ ?a _ _ = _ =>
      replace a with 0%Z end; [done|].
    generalize (Z.pos (shl_align mx ex (IntDef.Z.min ex ex)).1).
    intros P. unfold cond_Zopp.
    change IntDef.Z.add with Z.add. change IntDef.Z.opp with Z.opp.
    destruct sx; cbn [negb]; lia.
Qed.

Lemma mirrored_sym x y : mirrored x y → mirrored y x.
Proof.
  unfold mirrored.
  destruct (Prim2SF x) as [sx|sx| |sx mx ex], (Prim2SF y) as [sy|sy| |sy my ey];
    simpl; try done.
  - intros ->. by destruct sx.
  - intros (-> & -> & ->). by destruct sx.
Qed.

Lemma mirrored_zero : mirrored 0 0.
Proof. by vm_compute. Qed.

Lemma mirrored_step x y v : mirrored x y → mirrored (x + v) (y - v).
Proof. unfold mirrored. rewrite FloatAxioms.add_spec, FloatAxioms.sub_spec. apply SFmirrored_add_sub. Qed.

Lemma is_finite_SF x :
  is_finite x = true →
  (∀ s, Prim2SF x ≠ S754_infinity s) ∧ Prim2SF x ≠ S754_nan.
Proof.
  unfold is_finite, is_nan, is_infinity.
  rewrite negb_true_iff, orb_false_iff, negb_false_iff.
  rewrite !FloatAxioms.eqb_spec, FloatAxioms.abs_spec.
  intros [H1 H2]. split.
  - intros s Hs. rewrite Hs in H2. by vm_compute in H2.
  - intros Hs. rewrite Hs in H1. by vm_compute in H1.
Qed.

Lemma mirrored_finite_sum x y :
  mirrored x y → is_finite x = true →
  (x + y =? 0)%float = true ∧ within_tolerance (x + y) = true.
Proof.
  intros H [Hinf Hnan]%is_finite_SF.
  destruct (SFmirrored_finite_sum _ _ H Hinf Hnan) as [s Hs].
  unfold within_tolerance.
  rewrite FloatAxioms.eqb_spec, FloatAxioms.leb_spec, FloatAxioms.abs_spec, FloatAxioms.add_spec, Hs.
  split; [by destruct s|by vm_compute].
Qed.

(** The sign tests of [showBalances]. *)
Lemma negative_not_positive v :
  (v <? 0)%float = true → (0 <? v)%float = false.
Proof.
  rewrite !FloatAxioms.ltb_spec.
  destruct (Prim2SF v) as [s|s| |s m e]; vm_compute; try done.
  all: by destruct s.
Qed.

Lemma lines_of_nonzero v :
  (epsilon <=? abs v)%float = true → (0 <? v)%float || (v <? 0)%float = true.
Proof.
  rewrite FloatAxioms.leb_spec, !FloatAxioms.ltb_spec, FloatAxioms.abs_spec.
  destruct (Prim2SF v) as [s|s| |s m e]; vm_compute; try done.
  all: by destruct s.
Qed.

Lemma no_line_iff v :
  (0 <? v)%float = false ∧ (v <? 0)%float = false ↔
  (v =? 0)%float = true ∨ is_nan v = true.
Proof.
  unfold is_nan. rewrite !FloatAxioms.ltb_spec, !FloatAxioms.eqb_spec.
  destruct (Prim2SF v) as [s|s| |s m e].
  - vm_compute. split; auto.
  - destruct s; vm_compute; split; intros; intuition congruence.
  - vm_compute. split; auto.
  - assert (SFeqb (S754_finite s m e) (S754_finite s m e) = true) as ->.
    { unfold SFeqb, SFcompare. rewrite Z.compare_refl.
      assert (PosDef.Pos.compare_cont Eq m m = Eq) as -> by apply Pos.compare_refl.
      by destruct s. }
    destruct s; vm_compute; split; intros; intuition congruence.
Qed.

(** [amount / users.size()] for an empty [users]: an infinity or a NaN. *)
Lemma div_by_zero_size x : is_finite (x / size_to_double 0) = false.
Proof.
  unfold is_finite, is_nan, is_infinity.
  rewrite negb_false_iff, orb_true_iff, negb_true_iff.
  rewrite !FloatAxioms.eqb_spec, FloatAxioms.abs_spec, FloatAxioms.div_spec.
  change (Prim2SF (size_to_double 0)) with (S754_zero false).
  destruct (Prim2SF x) as [[]|[]| |[] m e]; simpl; auto.
Qed.
End binary64.

(** * Properties of the group ledger *)

(** ** Rejections of [addExpense] *)

(** C4 — An expense whose payer or one of whose listed participants is not
    a member of the group is turned down with the invalid-users message,
    and the group (members and debt matrix) is left exactly as it was. *)
Theorem addExpense_rejects_non_members g desc amount paidBy users type values :
  Group.isMember g paidBy = false ∨
    (∃ u, u ∈ users ∧ Group.isMember g u = false) →
  ∃ out,
    Group.addExpense g desc amount paidBy users type values = Some (g, out) ∧
    expense_rejected out.
Proof.
  intros H. exists [LInvalidUsersInExpense]. split; [|done].
  unfold Group.addExpense.
  destruct H as [->|H]; [done|].
  apply allMembersExist_false in H as ->.
  by rewrite orb_true_r.
Qed.

Lemma addExpense_rejects_non_members_witness :
  Group.isMember group_ab "uX" = false ∧
  ∃ out,
    Group.addExpense group_ab "Ghost" 100 "uX" [a] EQUAL [] = Some (group_ab, out) ∧
    expense_rejected out.
Proof.
  split; [reflexivity|].
  apply (addExpense_rejects_non_members group_ab "Ghost" 100 "uX" [a] EQUAL []).
  left. reflexivity.
Defined.

(** C5, as the code has it — An expense with an empty participant list is
    not turned down for being empty: it is reported as added when the payer
    is a member (and turned down as invalid users when the payer is not),
    the group being left unchanged either way.  The call always returns;
    the EQUAL branch does divide by the size 0, in binary64, where the
    quotient is an infinity or a NaN that no split uses. *)
Theorem addExpense_empty_participants g desc amount paidBy type values :
  Group.addExpense g desc amount paidBy [] type values =
    Some (g, [if Group.isMember g paidBy
              then LExpenseAdded desc amount (Group.getUserName g paidBy)
              else LInvalidUsersInExpense]) ∧
  is_finite (amount / size_to_double (length (@nil string))) = false.
Proof.
  split; [|apply div_by_zero_size].
  unfold Group.addExpense. simpl.
  destruct (Group.isMember g paidBy); simpl; [|done].
  assert (Group.make_splits amount [] type values = Some []) as ->.
  { by destruct type. }
  simpl. by rewrite with_balances_id.
Qed.

(** C5, counterexample — [a] pays 100 for nobody in the group of [a] and
    [b]: the expense is reported as added, not rejected. *)
Lemma empty_participants_not_rejected :
  Group.addExpense group_ab "Nobody" 100 a [] EQUAL [] =
    Some (group_ab, [LExpenseAdded "Nobody" 100 "a"]) ∧
  ¬ expense_rejected [LExpenseAdded "Nobody" 100 "a"].
Proof. split; [by vm_compute | by intros [=]]. Qed.

(** C10, as the code has it — With policy EXACT or PERCENTAGE: when the
    payer and all listed users are members, the loop reads [values[i]] for
    every [i] below the number of participants with no check of the length
    of [values]; the read leaves the vector exactly when [values] is
    shorter than the participant list, and when it is not the splits pair
    participant [i] with [values[i]].  When the payer or a listed user is
    not a member, the call is turned down before [values] is read,
    whatever its length. *)
Theorem values_read_in_bounds_iff g desc amount paidBy users type values :
  type = EXACT ∨ type = PERCENTAGE →
  (Group.isMember g paidBy = true →
   (∀ u, u ∈ users → Group.isMember g u = true) →
   (Group.addExpense g desc amount paidBy users type values = None ↔
    length values < length users) ∧
   (length users ≤ length values →
    Group.make_splits amount users type values =
      Some (zip_with
              (λ u v, Split.mk u (if type is EXACT then v
                                  else (amount * v / 100)%float))
              users values))) ∧
  (Group.isMember g paidBy = false ∨
     (∃ u, u ∈ users ∧ Group.isMember g u = false) →
   Group.addExpense g desc amount paidBy users type values =
     Some (g, [LInvalidUsersInExpense])).
Proof.
  intros Htype. split.
  - intros Hp Hu. split.
    + rewrite addExpense_accepted by done.
      destruct (Group.make_splits amount users type values) as [splits|] eqn:Hs;
        simpl.
      * split; [done|]. intros Hlt.
        assert (Group.make_splits amount users type values = None) as Hn.
        { apply make_splits_None. split; [|done]. by destruct Htype as [-> | ->]. }
        congruence.
      * split; [|done]. intros _. by apply make_splits_None in Hs as [_ ?].
    + intros Hle. destruct Htype as [-> | ->]; simpl.
      * by apply (indexed_splits_zip (λ v, v)).
      * by apply (indexed_splits_zip (λ v, (amount * v / 100)%float)).
  - intros H. unfold Group.addExpense.
    destruct H as [->|H]; [done|].
    apply allMembersExist_false in H as ->.
    by rewrite orb_true_r.
Qed.

Lemma values_read_in_bounds_iff_witness :
  Group.isMember group_ab a = true ∧
  (Group.addExpense group_ab "Bad" 100 a [a; b] EXACT [40%float] = None ↔
   length [40%float] < length [a; b]) ∧
  (length [a; b] ≤ length [40%float] →
   Group.make_splits 100 [a; b] EXACT [40%float] =
     Some (zip_with (λ u v, Split.mk u v) [a; b] [40%float])).
Proof.
  split; [reflexivity|].
  apply (proj1 (values_read_in_bounds_iff group_ab "Bad" 100 a [a; b] EXACT
                  [40%float] (or_introl eq_refl))).
  - reflexivity.
  - intros u Hu. apply list_elem_of_In in Hu.
    destruct Hu as [<-|[<-|[]]]; reflexivity.
Defined.

(** C10, counterexample — an EXACT expense paid by "uX", who is not a
    member of the group of [a] and [b], for [a], with no value at all:
    [values] is shorter than the participant list, and yet nothing is read
    out of range; the call returns, turned down for its users. *)
Lemma values_not_read_when_rejected :
  Group.isMember group_ab "uX" = false ∧
  length (@nil double) < length [a] ∧
  Group.addExpense group_ab "Ghost" 100 "uX" [a] EXACT [] =
    Some (group_ab, [LInvalidUsersInExpense]) ∧
  Group.addExpense group_ab "Ghost" 100 "uX" [a] EXACT [] ≠ None.
Proof. split_and!; by vm_compute. Qed.

(** ** Settlements *)

(** C8 — An accepted settlement between two members applies exactly
    [bal[from][to] += amount] and [bal[to][from] -= amount]: these two
    entries get the stated values, every other entry of the matrix, the
    member rows and the member list are as before. *)
Theorem settlePayment_sign_convention g fromUserId toUserId amount :
  Group.isMember g fromUserId = true →
  Group.isMember g toUserId = true →
  let g' := (Group.settlePayment g fromUserId toUserId amount).1 in
  let m := Group.balances g in
  let m' := Group.balances g' in
  (Group.settlePayment g fromUserId toUserId amount).2 =
    [LPaid (Group.getUserName g fromUserId) (Group.getUserName g toUserId) amount] ∧
  (fromUserId ≠ toUserId →
   stored m' fromUserId toUserId = Some (at2 m fromUserId toUserId + amount)%float ∧
   stored m' toUserId fromUserId = Some (at2 m toUserId fromUserId - amount)%float) ∧
  (fromUserId = toUserId →
   stored m' fromUserId fromUserId =
     Some (at2 m fromUserId fromUserId + amount - amount)%float) ∧
  (∀ x y, ¬ (x = fromUserId ∧ y = toUserId) → ¬ (x = toUserId ∧ y = fromUserId) →
          stored m' x y = stored m x y) ∧
  (∀ x, Group.isMember g' x = Group.isMember g x) ∧
  Group.members g' = Group.members g.
Proof.
  intros Hf Ht. unfold Group.settlePayment. rewrite Hf, Ht. simpl.
  split_and!; try done.
  - intros Hne.
    rewrite !stored_minus_assign, at2_plus_assign, !stored_plus_assign.
    split; entry_cases.
  - intros <-.
    rewrite stored_minus_assign, at2_plus_assign. entry_cases.
  - intros x y H1 H2.
    rewrite stored_minus_assign, stored_plus_assign. entry_cases.
  - intros x. apply bool_decide_ext. simpl.
    rewrite lookup_minus_assign_is_Some, lookup_plus_assign_is_Some.
    apply isMember_true in Hf, Ht.
    split; [|by auto]. by intros [->|[->|?]].
Qed.

Lemma settlePayment_sign_convention_witness :
  Group.isMember group_ab a = true ∧ Group.isMember group_ab b = true ∧
  stored (Group.balances (Group.settlePayment group_ab a b 200).1) a b =
    Some (at2 (Group.balances group_ab) a b + 200)%float.
Proof.
  split; [reflexivity|]. split; [reflexivity|].
  refine (proj1 (proj1 (proj2
    (settlePayment_sign_convention group_ab a b 200 _ _)) _)).
  - reflexivity.
  - reflexivity.
  - discriminate.
Defined.

(** C6, as the code has it — [settlePayment] does not look at the amount.
    It is turned down exactly when an endpoint is not a member, and then
    the group is unchanged; between two members any amount, zero and
    negative ones included, is applied as [bal[from][to] += amount] and
    [bal[to][from] -= amount]. *)
Theorem settlePayment_checks_membership_only g fromUserId toUserId amount :
  let r := Group.settlePayment g fromUserId toUserId amount in
  (settlement_rejected r.2 ↔
   Group.isMember g fromUserId = false ∨ Group.isMember g toUserId = false) ∧
  (settlement_rejected r.2 → r.1 = g) ∧
  (¬ settlement_rejected r.2 → fromUserId ≠ toUserId →
   at2 (Group.balances r.1) fromUserId toUserId =
     (at2 (Group.balances g) fromUserId toUserId + amount)%float ∧
   at2 (Group.balances r.1) toUserId fromUserId =
     (at2 (Group.balances g) toUserId fromUserId - amount)%float).
Proof.
  unfold settlement_rejected, Group.settlePayment.
  destruct (Group.isMember g fromUserId) eqn:Hf,
           (Group.isMember g toUserId) eqn:Ht; simpl.
  2-4: split_and!; [split; auto | done | done].
  split_and!.
  - split; [done|]. by intros [?|?].
  - done.
  - intros _ Hne.
    rewrite !at2_minus_assign, !at2_plus_assign.
    split; entry_cases.
Qed.

Lemma settlePayment_checks_membership_only_witness :
  ¬ settlement_rejected group_ab_settled_neg.2 ∧ a ≠ b ∧
  at2 (Group.balances group_ab_settled_neg.1) a b =
    (at2 (Group.balances group_ab) a b + -50)%float.
Proof.
  split; [by intros [=]|]. split; [discriminate|].
  refine (proj1 (proj2 (proj2
    (settlePayment_checks_membership_only group_ab a b (-50))) _ _)).
  - by intros [=].
  - discriminate.
Defined.

(** C6, counterexample — a settlement of -50 from [a] to [b], both
    members: it is not turned down, and the balance of [a] towards [b]
    moves from 0 to -50 (that of [b] towards [a] to 50). *)
Lemma negative_settlement_applied :
  (-50 <=? 0)%float = true ∧
  Group.isMember group_ab a = true ∧ Group.isMember group_ab b = true ∧
  ¬ settlement_rejected group_ab_settled_neg.2 ∧
  at2 (Group.balances group_ab) a b = 0%float ∧
  at2 (Group.balances group_ab_settled_neg.1) a b = (-50)%float ∧
  at2 (Group.balances group_ab) b a = 0%float ∧
  at2 (Group.balances group_ab_settled_neg.1) b a = 50%float.
Proof. split_and!; try reflexivity. by intros [=]. Qed.

(** ** Accepted expenses *)

(** What an accepted expense leaves in place: rows and member list. *)
Lemma addExpense_keeps_members g paidBy splits :
  Group.isMember g paidBy = true →
  (∀ s, s ∈ splits → Group.isMember g (Split.userId s) = true) →
  ∀ x, Group.isMember
         (Group.with_balances g
            (foldl (Group.apply_split paidBy) (Group.balances g) splits)) x =
       Group.isMember g x.
Proof.
  intros Hp Hs x. apply bool_decide_ext. simpl.
  apply lookup_foldl_is_Some.
  - by apply isMember_true.
  - intros s' Hs'. by apply isMember_true, Hs.
Qed.

(** C7, as the code has it — For an accepted EQUAL expense whose listed
    participants are pairwise distinct, with total [T], payer [p] and [n]
    participants: each listed [q] other than [p] has [bal[p][q]] increased
    by [T/n] and [bal[q][p]] decreased by [T/n]; every other entry, the
    payer's own included, the member rows and the member list are
    unchanged.  After the Lunch expense of [main] (800 paid by user1 for
    user1..user4) user1 has 200 on each of user2, user3, user4, and each of
    them has -200 on user1. *)
Theorem equal_split_correct :
  (∀ g desc amount paidBy users values,
     Group.isMember g paidBy = true →
     (∀ u, u ∈ users → Group.isMember g u = true) →
     NoDup users →
     let share := (amount / size_to_double (length users))%float in
     let m := Group.balances g in
     ∃ g',
       Group.addExpense g desc amount paidBy users EQUAL values =
         Some (g', [LExpenseAdded desc amount (Group.getUserName g paidBy)]) ∧
       (∀ q, q ∈ users → q ≠ paidBy →
          stored (Group.balances g') paidBy q = Some (at2 m paidBy q + share)%float ∧
          stored (Group.balances g') q paidBy = Some (at2 m q paidBy - share)%float) ∧
       (∀ x y, ¬ (x = paidBy ∧ y ∈ users ∧ y ≠ paidBy) →
               ¬ (y = paidBy ∧ x ∈ users ∧ x ≠ paidBy) →
               stored (Group.balances g') x y = stored m x y) ∧
       (∀ x, Group.isMember g' x = Group.isMember g x) ∧
       Group.members g' = Group.members g) ∧
  (∃ g, group_lunch = Some g ∧
        stored (Group.balances g) "user1" "user2" = Some 200%float ∧
        stored (Group.balances g) "user1" "user3" = Some 200%float ∧
        stored (Group.balances g) "user1" "user4" = Some 200%float ∧
        stored (Group.balances g) "user2" "user1" = Some (-200)%float ∧
        stored (Group.balances g) "user3" "user1" = Some (-200)%float ∧
        stored (Group.balances g) "user4" "user1" = Some (-200)%float ∧
        stored (Group.balances g) "user1" "user1" = None).
Proof.
  split.
  - intros g desc amount paidBy users values Hp Hu Hnd share m.
    rewrite addExpense_accepted by done. simpl.
    fold share.
    set (splits := (λ userId, Split.mk userId share) <$> users).
    assert (Split.userId <$> splits = users) as Hids.
    { unfold splits. rewrite <- list_fmap_compose.
      rewrite <- (list_fmap_id users) at 2. by apply list_fmap_ext. }
    eexists. split; [done|]. simpl. split_and!.
    + intros q Hq Hne.
      apply (stored_foldl_touched paidBy splits m (Split.mk q share)).
      * by rewrite Hids.
      * unfold splits. by apply (list_elem_of_fmap_2 (λ u, Split.mk u share)).
      * done.
    + intros x y H1 H2. apply stored_foldl_untouched.
      intros s [u [-> Hu']]%list_elem_of_fmap Hne. simpl in *.
      split; intros [-> ->]; [apply H1 | apply H2]; done.
    + apply addExpense_keeps_members; [done|].
      intros s [u [-> Hu']]%list_elem_of_fmap. by apply Hu.
    + done.
  - eexists. split; [by vm_compute|]. by vm_compute.
Qed.

Lemma equal_split_correct_witness :
  Group.isMember group_ab a = true ∧ NoDup [b] ∧
  ∃ g',
    Group.addExpense group_ab "Taxi" 100 a [b] EQUAL [] =
      Some (g', [LExpenseAdded "Taxi" 100 (Group.getUserName group_ab a)]) ∧
    (∀ q, q ∈ [b] → q ≠ a →
       stored (Group.balances g') a q =
         Some (at2 (Group.balances group_ab) a q + 100 / size_to_double 1)%float ∧
       stored (Group.balances g') q a =
         Some (at2 (Group.balances group_ab) q a - 100 / size_to_double 1)%float).
Proof.
  assert (NoDup [b]) as Hnd by (apply NoDup_singleton).
  split; [reflexivity|]. split; [exact Hnd|].
  destruct (proj1 equal_split_correct group_ab "Taxi" 100%float a [b] [])
    as (g' & Hg' & Hq & _).
  - reflexivity.
  - intros u Hu. apply list_elem_of_In in Hu.
    destruct Hu as [<-|[]]; reflexivity.
  - exact Hnd.
  - exists g'. split; [exact Hg' | exact Hq].
Defined.

(** C7, counterexample — [a] pays 100 and lists [b] twice.  The expense is
    accepted, [T/n] is 50, and [bal[a][b]] goes from 0 to 100, not 50. *)
Lemma equal_split_repeated_participant :
  ∃ g', group_ab_twice = Some (g', [LExpenseAdded "Twice" 100 "a"]) ∧
        Group.isMember group_ab a = true ∧ Group.isMember group_ab b = true ∧
        (100 / size_to_double (length [b; b]))%float = 50%float ∧
        at2 (Group.balances group_ab) a b = 0%float ∧
        at2 (Group.balances g') a b = 100%float ∧
        at2 (Group.balances g') a b ≠ (at2 (Group.balances group_ab) a b + 50)%float.
Proof.
  eexists. split; [by vm_compute|].
  split_and!; by vm_compute.
Qed.

(** C2, as the code has it — Policy EXACT does not validate [values].  With
    payer and participants members and at least as many values as
    participants, the expense is accepted whatever the values add up to:
    participant [i] gets the share [values[i]], values beyond the last
    participant are ignored, and with pairwise distinct participants each
    one other than the payer [p] has [bal[p][q]] increased and [bal[q][p]]
    decreased by its value.  With fewer values than participants the read
    of [values] leaves the vector.  Nothing is rejected as an invalid
    split. *)
Theorem exact_split_unchecked g desc amount paidBy users values :
  Group.isMember g paidBy = true →
  (∀ u, u ∈ users → Group.isMember g u = true) →
  let m := Group.balances g in
  let m' := foldl (Group.apply_split paidBy) m (zip_with Split.mk users values) in
  (length users ≤ length values →
   Group.addExpense g desc amount paidBy users EXACT values =
     Some (Group.with_balances g m',
           [LExpenseAdded desc amount (Group.getUserName g paidBy)]) ∧
   (NoDup users →
    ∀ i q v, users !! i = Some q → values !! i = Some v → q ≠ paidBy →
      stored m' paidBy q = Some (at2 m paidBy q + v)%float ∧
      stored m' q paidBy = Some (at2 m q paidBy - v)%float)) ∧
  (length values < length users →
   Group.addExpense g desc amount paidBy users EXACT values = None).
Proof.
  intros Hp Hu m m'. split.
  - intros Hle. split.
    + rewrite addExpense_accepted by done. simpl.
      by rewrite indexed_splits_zip by done.
    + intros Hnd i q v Hq Hv Hne.
      apply (stored_foldl_touched paidBy _ m (Split.mk q v)).
      * by rewrite fmap_zip_with_l.
      * apply (list_elem_of_lookup_2 _ i), lookup_zip_with_Some. eauto.
      * done.
  - intros Hlt. rewrite addExpense_accepted by done.
    assert (Group.make_splits amount users EXACT values = None) as ->; [|done].
    by apply make_splits_None.
Qed.

Lemma exact_split_unchecked_witness :
  Group.isMember group_ab a = true ∧ length [a; b] ≤ length [40; 50]%float ∧
  Group.addExpense group_ab "Bad" 100 a [a; b] EXACT [40; 50]%float =
    Some (Group.with_balances group_ab
            (foldl (Group.apply_split a) (Group.balances group_ab)
               (zip_with Split.mk [a; b] [40; 50]%float)),
          [LExpenseAdded "Bad" 100 (Group.getUserName group_ab a)]).
Proof.
  split; [reflexivity|]. split; [simpl; lia|].
  refine (proj1 (proj1
    (exact_split_unchecked group_ab "Bad" 100 a [a; b] [40; 50]%float _ _) _)).
  - reflexivity.
  - intros u Hu. apply list_elem_of_In in Hu.
    destruct Hu as [<-|[<-|[]]]; reflexivity.
  - simpl. lia.
Defined.

(** C2, counterexample — scenario 5: 100 paid by [a] for [a] and [b] with
    exact amounts 40 and 50.  The list has the length of the participant
    list and adds up to 90, 10 off the total; the expense is reported as
    added and [bal[a][b]] becomes 50, [bal[b][a]] -50. *)
Lemma exact_split_bad_sum_accepted :
  ∃ g', group_ab_bad = Some (g', [LExpenseAdded "Bad" 100 "a"]) ∧
        (epsilon <? abs (40 + 50 - 100))%float = true ∧
        ¬ expense_rejected [LExpenseAdded "Bad" 100 "a"] ∧
        stored (Group.balances group_ab) a b = None ∧
        stored (Group.balances g') a b = Some 50%float ∧
        stored (Group.balances g') b a = Some (-50)%float ∧
        Group.balances g' ≠ Group.balances group_ab.
Proof.
  eexists. split; [by vm_compute|].
  split_and!; by vm_compute.
Qed.

(** ** [addMember] *)

(** C3, as the code has it — [addMember(x)] always appends [x] to the
    member list and sets the row of [x] to the empty row, leaving the other
    rows alone.  Applied twice it gives the debt matrix it gives applied
    once, and a member list with [x] once more.  Adding an existing member
    leaves the matrix as it was exactly when that member's row was
    empty. *)
Theorem addMember_resets_row g user :
  let g1 := (Group.addMember g user).1 in
  let g2 := (Group.addMember g1 user).1 in
  Group.balances g2 = Group.balances g1 ∧
  Group.members g1 = Group.members g ++ [user] ∧
  Group.members g2 = Group.members g1 ++ [user] ∧
  Group.balances g1 !! User.userId user = Some ∅ ∧
  (∀ x, x ≠ User.userId user →
        Group.balances g1 !! x = Group.balances g !! x) ∧
  (Group.balances g1 = Group.balances g ↔
   Group.balances g !! User.userId user = Some ∅).
Proof.
  simpl. split_and!; try done.
  - apply insert_insert_eq.
  - apply lookup_insert_eq.
  - intros x Hx. by apply lookup_insert_ne.
  - split.
    + intros <-. apply lookup_insert_eq.
    + apply insert_id.
Qed.

Lemma addMember_resets_row_witness :
  a ≠ User.userId user_b ∧
  Group.balances (Group.addMember group_ab_paid user_b).1 !! a =
    Group.balances group_ab_paid !! a.
Proof.
  split; [discriminate|].
  refine (proj1 (proj2 (proj2 (proj2 (proj2
    (addMember_resets_row group_ab_paid user_b))))) a _).
  discriminate.
Defined.

(** C3, counterexample — [a] added twice to a new group: the state after
    the second call is not the state after the first (the member list has
    [a] twice).  And [a] added again after paying 100 for [b]: the row of
    [a] loses its entry. *)
Lemma addMember_twice_differs :
  (Group.addMember (Group.addMember (Group.new 0 "G").1 user_a).1 user_a).1 ≠
    (Group.addMember (Group.new 0 "G").1 user_a).1 ∧
  Group.isMember group_ab_paid a = true ∧
  stored (Group.balances group_ab_paid) a b = Some 100%float ∧
  stored (Group.balances group_ab_readded) a b = None.
Proof.
  split_and!; by vm_compute.
Qed.

(** ** The balance listing *)

(** A line printed for an entry of a stored row is in the listing. *)
Lemma show_entry_in_showBalances g userId userBalances otherId balance l :
  Group.balances g !! userId = Some userBalances →
  userBalances !! otherId = Some balance →
  l ∈ Group.show_entry g (otherId, balance) →
  l ∈ Group.showBalances g.
Proof.
  intros Hrow Hentry Hl. unfold Group.showBalances.
  apply elem_of_cons. right.
  apply list_elem_of_bind. exists (userId, userBalances). split.
  - unfold Group.show_member. apply elem_of_cons. right.
    apply elem_of_app. right.
    apply list_elem_of_bind. exists (otherId, balance).
    split; [done|]. by apply elem_of_in_order.
  - by apply elem_of_in_order.
Qed.

(** The lines of an entry are balance lines, and only for a balance that
    passes one of the two sign tests. *)
Lemma show_entry_balance_line g otherId balance l :
  l ∈ Group.show_entry g (otherId, balance) →
  is_balance_line l = true ∧
  ((0 <? balance)%float = true ∨ (balance <? 0)%float = true).
Proof.
  unfold Group.show_entry.
  destruct (0 <? balance)%float; [|destruct (balance <? 0)%float].
  - intros ->%list_elem_of_singleton. auto.
  - intros ->%list_elem_of_singleton. auto.
  - intros []%elem_of_nil.
Qed.

(** C9, as the code has it — The listing tests the sign of an entry, not
    its size against 0.01.  For an entry [balance] stored for [otherId] in
    the row of a member: a positive one is listed as owed, a negative one
    as owing its absolute value, so every entry of absolute value at least
    0.01 is listed; the entry is omitted exactly when it is zero or NaN.
    Conversely every balance line of the listing comes from a stored entry
    that is positive or negative. *)
Theorem showBalances_lists_nonzero g :
  (∀ userId userBalances otherId balance,
     Group.balances g !! userId = Some userBalances →
     userBalances !! otherId = Some balance →
     ((0 <? balance)%float = true →
      LOwes (Group.getUserName g otherId) balance ∈ Group.showBalances g) ∧
     ((balance <? 0)%float = true →
      LOwesTo (Group.getUserName g otherId) (abs balance) ∈ Group.showBalances g) ∧
     ((epsilon <=? abs balance)%float = true →
      Group.show_entry g (otherId, balance) ≠ []) ∧
     (Group.show_entry g (otherId, balance) = [] ↔
      (balance =? 0)%float = true ∨ is_nan balance = true)) ∧
  (∀ l, l ∈ Group.showBalances g → is_balance_line l = true →
     ∃ userId otherId balance,
       stored (Group.balances g) userId otherId = Some balance ∧
       l ∈ Group.show_entry g (otherId, balance) ∧
       ((0 <? balance)%float = true ∨ (balance <? 0)%float = true)).
Proof.
  split.
  - intros userId userBalances otherId balance Hrow Hentry.
    assert (Group.show_entry g (otherId, balance) = [] ↔
            (0 <? balance)%float = false ∧ (balance <? 0)%float = false) as Hnil.
    { unfold Group.show_entry.
      destruct (0 <? balance)%float; [|destruct (balance <? 0)%float].
      all: split; [try done | intros [? ?]; try done]. }
    split_and!.
    + intros Hpos.
      apply (show_entry_in_showBalances g userId userBalances otherId balance);
        [done..|].
      unfold Group.show_entry. rewrite Hpos. by apply list_elem_of_singleton.
    + intros Hneg. pose proof (negative_not_positive _ Hneg) as Hpos.
      apply (show_entry_in_showBalances g userId userBalances otherId balance);
        [done..|].
      unfold Group.show_entry. rewrite Hpos, Hneg.
      by apply list_elem_of_singleton.
    + intros Hbig%lines_of_nonzero [H1 H2]%Hnil.
      by rewrite H1, H2 in Hbig.
    + rewrite Hnil. apply no_line_iff.
  - intros l Hl Hline. unfold Group.showBalances in Hl.
    apply elem_of_cons in Hl as [->|Hl]; [done|].
    apply list_elem_of_bind in Hl as ([userId userBalances] & Hl & Hrow).
    apply elem_of_in_order in Hrow.
    unfold Group.show_member in Hl.
    apply elem_of_cons in Hl as [->|Hl]; [done|].
    apply elem_of_app in Hl as [Hl|Hl].
    { case_decide; [|by apply elem_of_nil in Hl].
      by apply list_elem_of_singleton in Hl as ->. }
    apply list_elem_of_bind in Hl as ([otherId balance] & Hl & Hentry).
    apply elem_of_in_order in Hentry.
    exists userId, otherId, balance. split_and!.
    + unfold stored. by rewrite Hrow.
    + done.
    + by apply show_entry_balance_line in Hl as [_ ?].
Qed.

Lemma showBalances_lists_nonzero_witness :
  stored (Group.balances group_ab_paid) a b = Some 100%float ∧
  (0 <? 100)%float = true ∧
  LOwes (Group.getUserName group_ab_paid b) 100 ∈ Group.showBalances group_ab_paid.
Proof.
  split; [reflexivity|]. split; [reflexivity|].
  refine (proj1 (proj1 (showBalances_lists_nonzero group_ab_paid)
    a (row (Group.balances group_ab_paid) a) b 100%float _ _) _);
    reflexivity.
Defined.

(** C9, counterexample — after [a] paid 1/128 for [b], the entries of the
    pair are 1/128 and -1/128, below 0.01 in absolute value, and the
    listing has a line for each. *)
Lemma showBalances_lists_below_epsilon :
  reachable group_ab_gum ∧
  stored (Group.balances group_ab_gum) a b = Some 0.0078125%float ∧
  stored (Group.balances group_ab_gum) b a = Some (-0.0078125)%float ∧
  (abs 0.0078125 <? epsilon)%float = true ∧
  (abs (-0.0078125) <? epsilon)%float = true ∧
  Group.showBalances group_ab_gum =
    [LBalancesFor "G"; LMember "a"; LOwes "b" 0.0078125;
     LMember "b"; LOwesTo "a" 0.0078125].
Proof.
  split_and!; try by vm_compute.
  eapply (reach_addExpense _ group_ab "Gum" 0.0078125 a [b] EQUAL []).
  - do 2 (apply reach_addMember; [|done]). apply reach_new.
  - by vm_compute.
Qed.

(** ** Antisymmetry of the debt matrix *)

Section antisymmetry.
Implicit Types (m : Matrix).

Lemma antisymmetric_empty : antisymmetric ∅.
Proof. intros A B _. apply mirrored_zero. Qed.

(** A row that is new and empty reads as the absent row did. *)
Lemma at2_insert_empty_row m u x y :
  m !! u = None → at2 (<[u := ∅]> m) x y = at2 m x y.
Proof.
  intros Hu. unfold at2, row. destruct (decide (x = u)) as [->|Hx].
  - by rewrite lookup_insert_eq, Hu.
  - by rewrite lookup_insert_ne.
Qed.

Lemma antisymmetric_plus_minus m p q v :
  antisymmetric m →
  antisymmetric (minus_assign q p v (plus_assign p q v m)).
Proof.
  intros Hm A B HAB.
  rewrite !at2_minus_assign, !at2_plus_assign.
  specialize (Hm A B HAB) as HAB'. specialize (Hm B A (not_eq_sym HAB)) as HBA'.
  entry_cases.
  - by apply mirrored_sym, mirrored_step.
  - by apply mirrored_step.
Qed.

Lemma antisymmetric_apply_split p m s :
  antisymmetric m → antisymmetric (Group.apply_split p m s).
Proof.
  intros Hm. unfold Group.apply_split. case_decide; [|done].
  by apply antisymmetric_plus_minus.
Qed.

Lemma antisymmetric_foldl p splits m :
  antisymmetric m → antisymmetric (foldl (Group.apply_split p) m splits).
Proof.
  revert m. induction splits as [|s splits IH]; intros m Hm; simpl; [done|].
  by apply IH, antisymmetric_apply_split.
Qed.

Lemma reachable_fresh_antisymmetric g :
  reachable_fresh g → antisymmetric (Group.balances g).
Proof.
  induction 1 as [n name | g user _ IH Hfresh
                 | g desc amount paidBy users type values g' out _ IH Hadd
                 | g fromUserId toUserId amount _ IH].
  - apply antisymmetric_empty.
  - intros A B HAB. simpl.
    apply isMember_false in Hfresh.
    rewrite !at2_insert_empty_row by done. by apply IH.
  - unfold Group.addExpense in Hadd.
    destruct (negb _ || negb _); [by simplify_eq|].
    destruct (Group.make_splits amount users type values) as [splits|];
      simplify_eq/=.
    by apply antisymmetric_foldl.
  - unfold Group.settlePayment.
    destruct (negb _ || negb _); [done|]. simpl.
    by apply antisymmetric_plus_minus.
Qed.
End antisymmetry.

(** C1, as the code has it — In every group reached by the public
    operations with [addMember] applied only to users that are not members
    yet, for all distinct [A] and [B], [bal[B][A]] is the negation of
    [bal[A][B]] (up to the sign of a zero); so whenever [bal[A][B]] is
    finite, [bal[A][B] + bal[B][A]] is zero, within the tolerance 0.01 in
    particular. *)
Theorem antisymmetry_fresh_members g A B :
  reachable_fresh g → A ≠ B →
  let x := at2 (Group.balances g) A B in
  let y := at2 (Group.balances g) B A in
  mirrored x y ∧
  (is_finite x = true →
   (x + y =? 0)%float = true ∧ within_tolerance (x + y) = true).
Proof.
  intros Hg HAB x y.
  assert (mirrored x y) as Hxy by (by apply reachable_fresh_antisymmetric).
  split; [done|]. by apply mirrored_finite_sum.
Qed.

Lemma antisymmetry_fresh_members_witness :
  reachable_fresh group_ab_paid ∧ a ≠ b ∧
  is_finite (at2 (Group.balances group_ab_paid) a b) = true ∧
  within_tolerance
    (at2 (Group.balances group_ab_paid) a b +
     at2 (Group.balances group_ab_paid) b a) = true.
Proof.
  assert (reachable_fresh group_ab_paid) as Hg.
  { apply (reach_addExpense _ group_ab "Taxi" 100 a [b] EQUAL []
             group_ab_paid [LExpenseAdded "Taxi" 100 "a"]).
    - apply reach_addMember; [|reflexivity].
      apply reach_addMember; [|reflexivity].
      apply reach_new.
    - vm_compute. reflexivity. }
  split; [exact Hg|]. split; [discriminate|]. split; [reflexivity|].
  refine (proj2 (proj2 (antisymmetry_fresh_members group_ab_paid a b Hg _) _)).
  - discriminate.
  - reflexivity.
Defined.

(** C1, counterexample — [a] and [b] join, [a] pays 100 for [b], and [a]
    is added again.  The group is reached by the public operations, [a]
    and [b] are distinct members, [bal[a][b]] reads 0 and [bal[b][a]] is
    -100: their sum is -100, outside the tolerance. *)
Lemma antisymmetry_broken_by_second_addMember :
  reachable group_ab_readded ∧
  a ≠ b ∧
  Group.isMember group_ab_readded a = true ∧
  Group.isMember group_ab_readded b = true ∧
  at2 (Group.balances group_ab_readded) a b = 0%float ∧
  at2 (Group.balances group_ab_readded) b a = (-100)%float ∧
  within_tolerance
    (at2 (Group.balances group_ab_readded) a b +
     at2 (Group.balances group_ab_readded) b a) = false.
Proof.
  split_and!; try by vm_compute.
  apply reach_addMember; [|done].
  apply (reach_addExpense _ group_ab "Taxi" 100 a [b] EQUAL []
           group_ab_paid [LExpenseAdded "Taxi" 100 "a"]).
  - do 2 (apply reach_addMember; [|done]). apply reach_new.
  - by vm_compute.
Qed.

(** The finiteness condition is needed: after [a] paid 2^1023 for [b]
    twice, with no member added twice, the two entries are the infinities
    of opposite sign and their sum is NaN, which is not within the
    tolerance. *)
Lemma antisymmetry_sum_after_overflow :
  reachable_fresh group_ab_huge2 ∧
  at2 (Group.balances group_ab_huge2) a b = infinity ∧
  at2 (Group.balances group_ab_huge2) b a = neg_infinity ∧
  within_tolerance
    (at2 (Group.balances group_ab_huge2) a b +
     at2 (Group.balances group_ab_huge2) b a) = false.
Proof.
  split_and!; try by vm_compute.
  apply (reach_addExpense _ group_ab_huge1 "Huge" huge a [b] EQUAL []
           group_ab_huge2 [LExpenseAdded "Huge" huge "a"]);
    [|by vm_compute].
  apply (reach_addExpense _ group_ab "Huge" huge a [b] EQUAL []
           group_ab_huge1 [LExpenseAdded "Huge" huge "a"]);
    [|by vm_compute].
  do 2 (apply reach_addMember; [|done]). apply reach_new.
Qed.

(** ** The run of [main] and the scenarios of the specification *)

(** What [main] prints, line by line. *)
Lemma main_prints :
  snd <$> Splitwise.main Splitwise.getInstance =
  Some [LUserCreated "Aditya" "user1"; LUserCreated "Rohit" "user2";
        LUserCreated "Manish" "user3"; LUserCreated "Saurav" "user4";
        LGroupCreated "Hostel Expenses" "group1";
        LMemberAdded "Aditya" "Hostel Expenses";
        LMemberAdded "Rohit" "Hostel Expenses";
        LMemberAdded "Manish" "Hostel Expenses";
        LMemberAdded "Saurav" "Hostel Expenses";
        LExpenseAdded "Lunch" 800 "Aditya";
        LExpenseAdded "Dinner" 700 "Manish";
        LBalancesFor "Hostel Expenses";
        LMember "Aditya"; LOwes "Rohit" 200; LOwes "Saurav" 200;
        LMember "Rohit"; LOwesTo "Aditya" 200;
        LMember "Manish"; LOwes "Saurav" 200;
        LMember "Saurav"; LOwesTo "Aditya" 200; LOwesTo "Manish" 200;
        LPaid "Rohit" "Manish" 200;
        LBalancesFor "Hostel Expenses";
        LMember "Aditya"; LOwes "Rohit" 200; LOwes "Saurav" 200;
        LMember "Rohit"; LOwesTo "Aditya" 200; LOwes "Manish" 200;
        LMember "Manish"; LOwesTo "Rohit" 200; LOwes "Saurav" 200;
        LMember "Saurav"; LOwesTo "Aditya" 200; LOwesTo "Manish" 200].
Proof. by vm_compute. Qed.

(** Scenario 4: the percentage split. *)
Lemma percentage_split_trip :
  ∃ g', group_ab_trip = Some (g', [LExpenseAdded "Trip" 1000 "a"]) ∧
        stored (Group.balances g') a b = Some 600%float ∧
        stored (Group.balances g') b a = Some (-600)%float ∧
        stored (Group.balances g') a a = None.
Proof. eexists. split; [by vm_compute|]. split_and!; by vm_compute. Qed.

(** [User::updateBalance], the one place where the source compares with
    0.01: an amount below the threshold is erased from the per-user map. *)
Lemma updateBalance_erases_below_epsilon :
  User.balances (User.updateBalance user_a b 0.0078125) !! b = None ∧
  User.balances (User.updateBalance user_a b 100) !! b = Some 100%float.
Proof. split; by vm_compute. Qed.

(** * Further properties of the ledger *)

(** ** What a call of [addExpense] or [settlePayment] amounts to *)

Lemma make_splits_userIds amount users type values splits :
  Group.make_splits amount users type values = Some splits →
  Split.userId <$> splits = users.
Proof.
  assert (∀ share, Group.indexed_splits share users values = Some splits →
                   Split.userId <$> splits = users) as Hindexed.
  { intros share Hs.
    assert (length users ≤ length values) as Hle.
    { apply (indexed_splits_is_Some share). by rewrite Hs. }
    rewrite indexed_splits_zip in Hs by done. simplify_eq.
    by apply fmap_zip_with_l. }
  destruct type; simpl; [|by apply Hindexed..].
  intros [= <-]. rewrite <- list_fmap_compose.
  rewrite <- (list_fmap_id users) at 2. by apply list_fmap_ext.
Qed.

Lemma addExpense_inv g desc amount paidBy users type values g' out :
  Group.addExpense g desc amount paidBy users type values = Some (g', out) →
  (g' = g ∧ out = [LInvalidUsersInExpense]) ∨
  (Group.isMember g paidBy = true ∧
   (∀ u, u ∈ users → Group.isMember g u = true) ∧
   ∃ splits,
     Group.make_splits amount users type values = Some splits ∧
     Split.userId <$> splits = users ∧
     g' = Group.with_balances g
            (foldl (Group.apply_split paidBy) (Group.balances g) splits) ∧
     out = [LExpenseAdded desc amount (Group.getUserName g paidBy)]).
Proof.
  unfold Group.addExpense.
  destruct (negb _ || negb _) eqn:Hguard.
  - intros [= <- <-]. by left.
  - apply addExpense_guard in Hguard as [Hp Hu].
    destruct (Group.make_splits amount users type values) as [splits|] eqn:Hs;
      [|done].
    intros [= <- <-]. right. split_and!; [done..|].
    exists splits. split_and!; try done. by apply make_splits_userIds in Hs.
Qed.

Lemma settlePayment_inv g fromUserId toUserId amount :
  Group.settlePayment g fromUserId toUserId amount = (g, [LInvalidUsers]) ∨
  (Group.isMember g fromUserId = true ∧ Group.isMember g toUserId = true ∧
   Group.settlePayment g fromUserId toUserId amount =
     (Group.with_balances g
        (minus_assign toUserId fromUserId amount
           (plus_assign fromUserId toUserId amount (Group.balances g))),
      [LPaid (Group.getUserName g fromUserId)
             (Group.getUserName g toUserId) amount])).
Proof.
  unfold Group.settlePayment.
  destruct (Group.isMember g fromUserId), (Group.isMember g toUserId);
    simpl; auto.
Qed.

Lemma settlePayment_keeps_members g fromUserId toUserId amount x :
  Group.isMember (Group.settlePayment g fromUserId toUserId amount).1 x =
  Group.isMember g x.
Proof.
  destruct (settlePayment_inv g fromUserId toUserId amount)
    as [->|(Hf & Ht & ->)]; [done|].
  apply bool_decide_ext. simpl.
  rewrite lookup_minus_assign_is_Some, lookup_plus_assign_is_Some.
  apply isMember_true in Hf, Ht.
  split; [|by auto]. by intros [->|[->|?]].
Qed.

Lemma addExpense_keeps_rows g desc amount paidBy users type values g' out x :
  Group.addExpense g desc amount paidBy users type values = Some (g', out) →
  Group.isMember g' x = Group.isMember g x.
Proof.
  intros [[-> _]|(Hp & Hu & splits & _ & Hids & -> & _)]%addExpense_inv; [done|].
  apply addExpense_keeps_members; [done|].
  intros s Hs. apply Hu. rewrite <- Hids. by apply list_elem_of_fmap_2.
Qed.

(** ** The frame of an expense *)

(** X1 — Whatever the policy, and also with repeated participants, an
    expense that returns changes no entry other than [bal[p][q]] and
    [bal[q][p]] for the payer [p] and a listed participant [q] other than
    [p]; in particular it changes no entry [bal[x][x]].  The member list,
    the member rows, the id and the name of the group stay as they are. *)
Theorem addExpense_frame g desc amount paidBy users type values g' out :
  Group.addExpense g desc amount paidBy users type values = Some (g', out) →
  (∀ x y, ¬ (x = paidBy ∧ y ∈ users ∧ y ≠ paidBy) →
          ¬ (y = paidBy ∧ x ∈ users ∧ x ≠ paidBy) →
          stored (Group.balances g') x y = stored (Group.balances g) x y) ∧
  (∀ x, stored (Group.balances g') x x = stored (Group.balances g) x x) ∧
  (∀ x, Group.isMember g' x = Group.isMember g x) ∧
  Group.members g' = Group.members g ∧
  Group.groupId g' = Group.groupId g ∧
  Group.name g' = Group.name g.
Proof.
  intros Hadd.
  assert (∀ x y, ¬ (x = paidBy ∧ y ∈ users ∧ y ≠ paidBy) →
                 ¬ (y = paidBy ∧ x ∈ users ∧ x ≠ paidBy) →
                 stored (Group.balances g') x y = stored (Group.balances g) x y)
    as Hframe.
  { apply addExpense_inv in Hadd
      as [[-> _]|(_ & _ & splits & _ & Hids & -> & _)]; [done|].
    intros x y H1 H2. simpl. apply stored_foldl_untouched.
    intros s Hs Hne.
    assert (Split.userId s ∈ users) as Hin.
    { rewrite <- Hids. by apply list_elem_of_fmap_2. }
    split; intros [-> ->]; [apply H1 | apply H2]; done. }
  split_and!.
  - done.
  - intros x. apply Hframe; intros (-> & _ & ?); done.
  - intros x. by eapply addExpense_keeps_rows.
  - by apply addExpense_inv in Hadd as [[-> _]|(_ & _ & ? & _ & _ & -> & _)].
  - by apply addExpense_inv in Hadd as [[-> _]|(_ & _ & ? & _ & _ & -> & _)].
  - by apply addExpense_inv in Hadd as [[-> _]|(_ & _ & ? & _ & _ & -> & _)].
Qed.

Lemma addExpense_frame_witness :
  Group.addExpense group_ab "Taxi" 100 a [b] EQUAL [] =
    Some (group_ab_paid, [LExpenseAdded "Taxi" 100 "a"]) ∧
  ∀ x, stored (Group.balances group_ab_paid) x x =
       stored (Group.balances group_ab) x x.
Proof.
  assert (Group.addExpense group_ab "Taxi" 100 a [b] EQUAL [] =
            Some (group_ab_paid, [LExpenseAdded "Taxi" 100 "a"])) as H.
  { vm_compute. reflexivity. }
  split; [exact H|].
  exact (proj1 (proj2 (addExpense_frame group_ab "Taxi" 100 a [b] EQUAL []
                         group_ab_paid [LExpenseAdded "Taxi" 100 "a"] H))).
Defined.

(** X2 — An expense all of whose listed participants are the payer leaves
    the whole group as it was, whatever the amount, the policy and the
    values. *)
Theorem addExpense_payer_only g desc amount paidBy users type values g' out :
  Group.addExpense g desc amount paidBy users type values = Some (g', out) →
  (∀ u, u ∈ users → u = paidBy) →
  g' = g.
Proof.
  intros [[-> _]|(_ & _ & splits & _ & Hids & -> & _)]%addExpense_inv Hall;
    [done|].
  assert (∀ m, foldl (Group.apply_split paidBy) m splits = m) as ->.
  { assert (∀ s, s ∈ splits → Split.userId s = paidBy) as Hs.
    { intros s Hs. apply Hall. rewrite <- Hids. by apply list_elem_of_fmap_2. }
    clear Hids. induction splits as [|s splits IH]; intros m; simpl; [done|].
    rewrite IH by (intros s' Hs'; apply Hs; by right).
    unfold Group.apply_split. rewrite decide_False; [done|].
    intros Hne. apply Hne, Hs. by left. }
  apply with_balances_id.
Qed.

Lemma addExpense_payer_only_witness :
  Group.addExpense group_ab "Solo" 100 a [a; a] EXACT [70; 5]%float =
    Some (Group.with_balances group_ab (Group.balances group_ab),
          [LExpenseAdded "Solo" 100 "a"]) ∧
  Group.with_balances group_ab (Group.balances group_ab) = group_ab.
Proof.
  assert (Group.addExpense group_ab "Solo" 100 a [a; a] EXACT [70; 5]%float =
            Some (Group.with_balances group_ab (Group.balances group_ab),
                  [LExpenseAdded "Solo" 100 "a"])) as H.
  { vm_compute. reflexivity. }
  split; [exact H|].
  refine (addExpense_payer_only group_ab "Solo" 100 a [a; a] EXACT
            [70; 5]%float _ _ H _).
  intros u Hu. apply list_elem_of_In in Hu.
  destruct Hu as [<-|[<-|[]]]; reflexivity.
Defined.

(** ** The percentage split *)

(** X3 — With policy PERCENTAGE, payer and participants members, pairwise
    distinct participants and at least as many values as participants, the
    expense is accepted and the participant [q] at index [i], when it is
    not the payer [p], has [bal[p][q]] increased and [bal[q][p]] decreased
    by [amount * values[i] / 100]; the percentages are not required to add
    up to 100. *)
Theorem percentage_split_correct g desc amount paidBy users values :
  Group.isMember g paidBy = true →
  (∀ u, u ∈ users → Group.isMember g u = true) →
  NoDup users →
  length users ≤ length values →
  let m := Group.balances g in
  ∃ g',
    Group.addExpense g desc amount paidBy users PERCENTAGE values =
      Some (g', [LExpenseAdded desc amount (Group.getUserName g paidBy)]) ∧
    ∀ i q v, users !! i = Some q → values !! i = Some v → q ≠ paidBy →
      stored (Group.balances g') paidBy q =
        Some (at2 m paidBy q + amount * v / 100)%float ∧
      stored (Group.balances g') q paidBy =
        Some (at2 m q paidBy - amount * v / 100)%float.
Proof.
  intros Hp Hu Hnd Hle m.
  rewrite addExpense_accepted by done. simpl.
  rewrite indexed_splits_zip by done. simpl.
  eexists. split; [done|]. simpl.
  intros i q v Hq Hv Hne.
  apply (stored_foldl_touched paidBy _ m
           (Split.mk q (amount * v / 100)%float)).
  - by rewrite fmap_zip_with_l.
  - apply (list_elem_of_lookup_2 _ i), lookup_zip_with_Some. eauto.
  - done.
Qed.

Lemma percentage_split_correct_witness :
  Group.isMember group_ab a = true ∧ NoDup [a; b] ∧
  length [a; b] ≤ length [40; 50]%float ∧
  ∃ g',
    Group.addExpense group_ab "Trip" 1000 a [a; b] PERCENTAGE [40; 50]%float =
      Some (g', [LExpenseAdded "Trip" 1000 (Group.getUserName group_ab a)]) ∧
    stored (Group.balances g') a b =
      Some (at2 (Group.balances group_ab) a b + 1000 * 50 / 100)%float.
Proof.
  assert (NoDup [a; b]) as Hnd.
  { apply NoDup_cons. split; [|apply NoDup_singleton].
    intros H. apply list_elem_of_In in H. destruct H as [H|[]]. discriminate H. }
  split; [reflexivity|]. split; [exact Hnd|]. split; [simpl; lia|].
  destruct (percentage_split_correct group_ab "Trip" 1000 a [a; b]
              [40; 50]%float) as (g' & Hg' & Hq).
  - reflexivity.
  - intros u Hu. apply list_elem_of_In in Hu.
    destruct Hu as [<-|[<-|[]]]; reflexivity.
  - exact Hnd.
  - simpl. lia.
  - exists g'. split; [exact Hg'|].
    apply (proj1 (Hq 1 b 50%float eq_refl eq_refl ltac:(discriminate))).
Defined.

(** ** Members and rows *)

Lemma isMember_addMember g user x :
  Group.isMember (Group.addMember g user).1 x = true ↔
  x = User.userId user ∨ Group.isMember g x = true.
Proof.
  rewrite !isMember_true. simpl.
  destruct (decide (x = User.userId user)) as [->|Hx].
  - rewrite lookup_insert_eq. split; [by left | by eauto].
  - rewrite lookup_insert_ne by done. split; [by right | by intros [?|?]].
Qed.

Lemma group_step_members g g' :
  group_step g g' →
  (∃ added, Group.members g' = Group.members g ++ added) ∧
  (∀ x, Group.isMember g x = true → Group.isMember g' x = true) ∧
  ((∀ x, Group.isMember g x = true ↔ x ∈ User.userId <$> Group.members g) →
   (∀ x, Group.isMember g' x = true ↔ x ∈ User.userId <$> Group.members g')).
Proof.
  destruct 1 as [g user | g desc amount paidBy users type values g' out Hadd
                | g fromUserId toUserId amount].
  - split_and!.
    + by exists [user].
    + intros x Hx. apply isMember_addMember. by right.
    + intros Hrows x. rewrite isMember_addMember, Hrows. simpl.
      rewrite fmap_app, elem_of_app. simpl.
      rewrite list_elem_of_singleton. tauto.
  - assert (Group.members g' = Group.members g) as Hm.
    { by apply addExpense_inv in Hadd as [[-> _]|(_ & _ & ? & _ & _ & -> & _)]. }
    split_and!.
    + exists []. by rewrite app_nil_r.
    + intros x. by rewrite (addExpense_keeps_rows _ _ _ _ _ _ _ _ _ x Hadd).
    + intros Hrows x.
      by rewrite (addExpense_keeps_rows _ _ _ _ _ _ _ _ _ x Hadd), Hm.
  - assert (Group.members (Group.settlePayment g fromUserId toUserId amount).1 =
            Group.members g) as Hm.
    { by destruct (settlePayment_inv g fromUserId toUserId amount)
        as [->|(_ & _ & ->)]. }
    split_and!.
    + exists []. by rewrite app_nil_r.
    + intros x. by rewrite settlePayment_keeps_members.
    + intros Hrows x. by rewrite settlePayment_keeps_members, Hm.
Qed.

Lemma reachable_with_group_steps guard g :
  reachable_with guard g → ∃ n name, rtc group_step (Group.new n name).1 g.
Proof.
  induction 1 as [n name | g user _ (n & name & IH) _
                 | g desc amount paidBy users type values g' out _
                     (n & name & IH) Hadd
                 | g fromUserId toUserId amount _ (n & name & IH)].
  - by exists n, name.
  - exists n, name. eapply rtc_r; [done|]. constructor.
  - exists n, name. eapply rtc_r; [done|]. by econstructor.
  - exists n, name. eapply rtc_r; [done|]. constructor.
Qed.

Lemma reachable_with_rows guard g :
  reachable_with guard g →
  ∀ x, Group.isMember g x = true ↔ x ∈ User.userId <$> Group.members g.
Proof.
  intros (n & name & Hsteps)%reachable_with_group_steps.
  revert g Hsteps.
  apply (rtc_ind_r
    (λ g, ∀ x, Group.isMember g x = true ↔ x ∈ User.userId <$> Group.members g)).
  - intros x. simpl. split; [done|]. by intros ?%elem_of_nil.
  - intros g1 g2 _ Hstep IH. by apply (group_step_members _ _ Hstep).
Qed.

Lemma reachable_fresh_NoDup g :
  reachable_fresh g → NoDup (User.userId <$> Group.members g).
Proof.
  induction 1 as [n name | g user Hg IH Hfresh
                 | g desc amount paidBy users type values g' out _ IH Hadd
                 | g fromUserId toUserId amount _ IH].
  - simpl. apply NoDup_nil_2.
  - simpl. rewrite fmap_app. apply NoDup_app. split_and!.
    + done.
    + intros x Hx [->|[]%elem_of_nil]%elem_of_cons.
      apply (reachable_with_rows _ _ Hg) in Hx. congruence.
    + apply NoDup_singleton.
  - by apply addExpense_inv in Hadd as [[-> _]|(_ & _ & ? & _ & _ & -> & _)].
  - by destruct (settlePayment_inv g fromUserId toUserId amount)
      as [->|(_ & _ & ->)].
Qed.

(** X4 — In every group reached by the public operations the rows of the
    debt matrix are those of the members: [isMember(x)] holds exactly when
    some user of the member list has the id [x]. *)
Theorem members_rows_agree g x :
  reachable g →
  (Group.isMember g x = true ↔
   ∃ user, user ∈ Group.members g ∧ User.userId user = x).
Proof.
  intros Hg. rewrite (reachable_with_rows _ _ Hg), list_elem_of_fmap.
  split; intros (u & ? & ?); by exists u.
Qed.

Lemma members_rows_agree_witness :
  reachable group_ab ∧
  (Group.isMember group_ab a = true ↔
   ∃ user, user ∈ Group.members group_ab ∧ User.userId user = a).
Proof.
  assert (reachable group_ab) as Hg.
  { apply reach_addMember; [|exact I].
    apply reach_addMember; [|exact I].
    apply reach_new. }
  split; [exact Hg|].
  exact (members_rows_agree group_ab a Hg).
Defined.

(** X5 — Along any sequence of calls of [addMember], [addExpense] and
    [settlePayment] no member is ever removed: the member list only grows,
    at its end, and a user that is a member stays one. *)
Theorem members_only_grow g g' :
  rtc group_step g g' →
  (∃ added, Group.members g' = Group.members g ++ added) ∧
  (∀ x, Group.isMember g x = true → Group.isMember g' x = true).
Proof.
  induction 1 as [g|g0 g1 g2 Hstep _ [[added2 IHm] IHr]].
  - split; [|done]. exists []. by rewrite app_nil_r.
  - destruct (group_step_members _ _ Hstep) as ([added1 Hm] & Hr & _).
    split.
    + exists (added1 ++ added2). by rewrite IHm, Hm, app_assoc.
    + intros x Hx. by apply IHr, Hr.
Qed.

Lemma members_only_grow_witness :
  rtc group_step group_ab group_ab_readded ∧
  (∀ x, Group.isMember group_ab x = true →
        Group.isMember group_ab_readded x = true).
Proof.
  assert (rtc group_step group_ab group_ab_readded) as Hsteps.
  { apply (rtc_l _ _ group_ab_paid).
    - apply (step_addExpense group_ab "Taxi" 100 a [b] EQUAL []
               group_ab_paid [LExpenseAdded "Taxi" 100 "a"]).
      vm_compute. reflexivity.
    - apply rtc_once. apply step_addMember. }
  split; [exact Hsteps|].
  exact (proj2 (members_only_grow group_ab group_ab_readded Hsteps)).
Defined.

(** ** [getUserName] *)

Lemma getUserName_loop_absent members userId :
  userId ∉ User.userId <$> members →
  Group.getUserName_loop members userId = "".
Proof.
  induction members as [|user members IH]; simpl; [done|].
  intros Hnot. rewrite decide_False.
  - apply IH. intros Hin. apply Hnot. by right.
  - intros Heq. apply Hnot. rewrite <- Heq. by left.
Qed.

Lemma getUserName_loop_NoDup members user :
  NoDup (User.userId <$> members) → user ∈ members →
  Group.getUserName_loop members (User.userId user) = User.name user.
Proof.
  induction members as [|user0 members IH]; simpl.
  { by intros _ ?%elem_of_nil. }
  intros [Hfresh Hnd]%NoDup_cons [->|Hin]%elem_of_cons.
  - by rewrite decide_True.
  - rewrite decide_False; [by apply IH|].
    intros Heq. apply Hfresh. rewrite Heq. by apply list_elem_of_fmap_2.
Qed.

(** X6 — [getUserName] gives the empty string for an id that is not a
    member of a group reached by the public operations; in a group where
    no user was added twice it gives, for every user of the member list,
    the name of that user. *)
Theorem getUserName_of_member :
  (∀ g userId, reachable g → Group.isMember g userId = false →
     Group.getUserName g userId = "") ∧
  (∀ g user, reachable_fresh g → user ∈ Group.members g →
     Group.getUserName g (User.userId user) = User.name user).
Proof.
  split.
  - intros g userId Hg Hnot. apply getUserName_loop_absent.
    intros Hin. apply (reachable_with_rows _ _ Hg) in Hin. congruence.
  - intros g user Hg Hin.
    by apply getUserName_loop_NoDup; [apply reachable_fresh_NoDup|].
Qed.

Lemma getUserName_of_member_witness :
  reachable group_ab ∧ Group.isMember group_ab "uX" = false ∧
  Group.getUserName group_ab "uX" = "".
Proof.
  assert (reachable group_ab) as Hg.
  { apply reach_addMember; [|exact I].
    apply reach_addMember; [|exact I].
    apply reach_new. }
  split; [exact Hg|]. split; [reflexivity|].
  exact (proj1 getUserName_of_member group_ab "uX" Hg eq_refl).
Defined.

(** ** Entries on the diagonal *)

(** X7 — A matrix with no stored entry [bal[x][x]] has none after
    [addMember], after any expense that returns and after a settlement
    between two different ids; a settlement of a member with itself does
    store [bal[x][x]]. *)
Theorem no_self_debt_kept g :
  no_self_debt (Group.balances g) →
  (∀ user, no_self_debt (Group.balances (Group.addMember g user).1)) ∧
  (∀ desc amount paidBy users type values g' out,
     Group.addExpense g desc amount paidBy users type values = Some (g', out) →
     no_self_debt (Group.balances g')) ∧
  (∀ fromUserId toUserId amount, fromUserId ≠ toUserId →
     no_self_debt
       (Group.balances (Group.settlePayment g fromUserId toUserId amount).1)) ∧
  (∀ x amount, Group.isMember g x = true →
     stored (Group.balances (Group.settlePayment g x x amount).1) x x =
       Some (0 + amount - amount)%float).
Proof.
  intros Hg. split_and!.
  - intros user x. simpl. unfold stored.
    destruct (decide (x = User.userId user)) as [->|Hx].
    + by rewrite lookup_insert_eq.
    + rewrite lookup_insert_ne by done. apply Hg.
  - intros desc amount paidBy users type values g' out Hadd x.
    apply addExpense_inv in Hadd
      as [[-> _]|(_ & _ & splits & _ & _ & -> & _)]; [done|].
    simpl. rewrite stored_foldl_untouched; [done|].
    intros s _ Hne. split; intros [-> ?]; done.
  - intros fromUserId toUserId amount Hne x.
    destruct (settlePayment_inv g fromUserId toUserId amount)
      as [->|(_ & _ & ->)]; [done|].
    simpl. rewrite stored_minus_assign, stored_plus_assign.
    rewrite !decide_False; [done|intros [-> ?]; done..].
  - intros x amount Hx. unfold Group.settlePayment. rewrite Hx. simpl.
    rewrite stored_minus_assign, at2_plus_assign.
    rewrite !decide_True by done.
    by rewrite (at2_stored _ x x), (Hg x).
Qed.

Lemma no_self_debt_kept_witness :
  no_self_debt (Group.balances group_ab) ∧ a ≠ b ∧
  no_self_debt (Group.balances (Group.settlePayment group_ab a b 200).1).
Proof.
  assert (no_self_debt (Group.balances group_ab)) as Hg.
  { intros x. unfold stored. simpl.
    destruct (decide (x = b)) as [->|Hb]; [reflexivity|].
    rewrite lookup_insert_ne by done.
    destruct (decide (x = a)) as [->|Ha]; [reflexivity|].
    rewrite lookup_insert_ne by done. reflexivity. }
  split; [exact Hg|]. split; [discriminate|].
  refine (proj1 (proj2 (proj2 (no_self_debt_kept group_ab Hg))) a b 200%float _).
  discriminate.
Defined.

(** ** Binary64: cancellation *)

Section binary64_cancel.
Lemma is_zero_SF z : PrimFloat.is_zero z = true ↔ ∃ s, Prim2SF z = S754_zero s.
Proof.
  unfold PrimFloat.is_zero. rewrite FloatAxioms.eqb_spec.
  change (Prim2SF zero) with (S754_zero false).
  destruct (Prim2SF z) as [s|s| |s m e]; simpl.
  - split; eauto.
  - split; [by destruct s|by intros [? ?]].
  - split; [done|by intros [? ?]].
  - split; [by destruct s|by intros [? ?]].
Qed.

(** A finite amount plus its negation, or minus itself, is [+0]. *)
Lemma SFadd_opp_finite s m e :
  SF64add (S754_finite s m e) (S754_finite (negb s) m e) = S754_zero false.
Proof.
  unfold SF64add. simpl.
  match goal with |- binary_normalize _ _ ?a _ _ = _ =>
    replace a with 0%Z end; [done|].
  generalize (Z.pos (shl_align m e (IntDef.Z.min e e)).1).
  intros P. unfold cond_Zopp.
  change IntDef.Z.add with Z.add. change IntDef.Z.opp with Z.opp.
  destruct s; cbn [negb]; lia.
Qed.

Lemma SFsub_self_finite s m e :
  SF64sub (S754_finite s m e) (S754_finite s m e) = S754_zero false.
Proof.
  unfold SF64sub. simpl.
  match goal with |- binary_normalize _ _ ?a _ _ = _ =>
    replace a with 0%Z end; [done|].
  generalize (Z.pos (shl_align m e (IntDef.Z.min e e)).1).
  intros P. unfold cond_Zopp.
  change IntDef.Z.sub with Z.sub. change IntDef.Z.opp with Z.opp.
  destruct s; lia.
Qed.

(** From a zero, adding and then subtracting a finite amount, or the other
    way round, gives a zero again. *)
Lemma zero_plus_minus z x :
  PrimFloat.is_zero z = true → is_finite x = true →
  PrimFloat.is_zero (z + x - x) = true ∧ PrimFloat.is_zero (z - x + x) = true.
Proof.
  intros [sz Hz]%is_zero_SF [Hinf Hnan]%is_finite_SF.
  split; apply is_zero_SF.
  - rewrite FloatAxioms.sub_spec, FloatAxioms.add_spec, Hz.
    destruct (Prim2SF x) as [s|s| |s m e]; [|by destruct (Hinf s)|done|].
    + destruct sz, s; simpl; eauto.
    + change (SF64add (S754_zero sz) (S754_finite s m e))
        with (S754_finite s m e).
      rewrite SFsub_self_finite. eauto.
  - rewrite FloatAxioms.add_spec, FloatAxioms.sub_spec, Hz.
    destruct (Prim2SF x) as [s|s| |s m e]; [|by destruct (Hinf s)|done|].
    + destruct sz, s; simpl; eauto.
    + change (SF64sub (S754_zero sz) (S754_finite s m e))
        with (S754_finite (negb s) m e).
      exists false.
      destruct s; [exact (SFadd_opp_finite false m e) | exact (SFadd_opp_finite true m e)].
Qed.

Lemma abs_zero_plus_opp x : abs (0 + - x) = abs (0 + x).
Proof.
  apply Prim2SF_inj.
  rewrite !FloatAxioms.abs_spec, !FloatAxioms.add_spec, FloatAxioms.opp_spec.
  change (Prim2SF 0) with (S754_zero false).
  by destruct (Prim2SF x) as [[]|[]| |[] m e].
Qed.

Lemma finite_plus_opp_small x :
  is_finite x = true → (abs (0 + x + - x) <? epsilon)%float = true.
Proof.
  intros [Hinf Hnan]%is_finite_SF.
  rewrite FloatAxioms.ltb_spec, FloatAxioms.abs_spec, !FloatAxioms.add_spec,
    FloatAxioms.opp_spec.
  change (Prim2SF 0) with (S754_zero false).
  destruct (Prim2SF x) as [s|s| |s m e]; [|by destruct (Hinf s)|done|].
  - by destruct s.
  - change (SF64add (S754_zero false) (S754_finite s m e))
      with (S754_finite s m e).
    change (SFopp (S754_finite s m e)) with (S754_finite (negb s) m e).
    by rewrite SFadd_opp_finite.
Qed.
End binary64_cancel.

(** ** An expense paid back *)

(** X8 — Between two different members [p] and [q] whose two balances are
    zero, and for a finite [x]: once [p] has paid an expense with the exact
    share [x] for [q], the settlement of [x] from [q] to [p] brings
    [bal[p][q]] and [bal[q][p]] back to zero, and no other entry has
    changed. *)
Theorem expense_then_settlement_cancels g desc amount p q x :
  Group.isMember g p = true → Group.isMember g q = true → p ≠ q →
  PrimFloat.is_zero (at2 (Group.balances g) p q) = true →
  PrimFloat.is_zero (at2 (Group.balances g) q p) = true →
  is_finite x = true →
  ∃ g1,
    Group.addExpense g desc amount p [q] EXACT [x] =
      Some (g1, [LExpenseAdded desc amount (Group.getUserName g p)]) ∧
    let g2 := (Group.settlePayment g1 q p x).1 in
    (Group.settlePayment g1 q p x).2 =
      [LPaid (Group.getUserName g q) (Group.getUserName g p) x] ∧
    PrimFloat.is_zero (at2 (Group.balances g2) p q) = true ∧
    PrimFloat.is_zero (at2 (Group.balances g2) q p) = true ∧
    (∀ y z, ¬ (y = p ∧ z = q) → ¬ (y = q ∧ z = p) →
            stored (Group.balances g2) y z = stored (Group.balances g) y z).
Proof.
  intros Hp Hq Hne Hpq Hqp Hx.
  assert (∀ u, u ∈ [q] → Group.isMember g u = true) as Hu.
  { by intros u ->%list_elem_of_singleton. }
  rewrite addExpense_accepted by done. simpl.
  eexists. split; [done|].
  set (m1 := Group.apply_split p (Group.balances g) (Split.mk q x)).
  set (g1 := Group.with_balances g m1).
  assert (∀ y, Group.isMember g1 y = Group.isMember g y) as Hrows.
  { apply (addExpense_keeps_members g p [Split.mk q x]); [done|].
    by intros s ->%list_elem_of_singleton. }
  unfold Group.settlePayment. rewrite !Hrows, Hp, Hq. simpl.
  split_and!.
  - done.
  - rewrite at2_minus_assign, !at2_plus_assign. unfold m1.
    rewrite !at2_apply_split. simpl.
    entry_cases; by apply zero_plus_minus.
  - rewrite at2_minus_assign, !at2_plus_assign. unfold m1.
    rewrite !at2_apply_split. simpl.
    entry_cases; by apply zero_plus_minus.
  - intros y z H1 H2.
    rewrite stored_minus_assign, stored_plus_assign. unfold m1.
    rewrite stored_apply_split. simpl.
    entry_cases.
Qed.

Lemma expense_then_settlement_cancels_witness :
  Group.isMember group_ab a = true ∧ Group.isMember group_ab b = true ∧
  a ≠ b ∧ is_finite 100 = true ∧
  ∃ g1,
    Group.addExpense group_ab "Taxi" 100 a [b] EXACT [100%float] =
      Some (g1, [LExpenseAdded "Taxi" 100 (Group.getUserName group_ab a)]) ∧
    PrimFloat.is_zero
      (at2 (Group.balances (Group.settlePayment g1 b a 100).1) a b) = true.
Proof.
  split; [reflexivity|]. split; [reflexivity|]. split; [discriminate|].
  split; [reflexivity|].
  destruct (expense_then_settlement_cancels group_ab "Taxi" 100 a b 100)
    as (g1 & Hg1 & _ & Hzero & _).
  - reflexivity.
  - reflexivity.
  - discriminate.
  - reflexivity.
  - reflexivity.
  - reflexivity.
  - exists g1. split; [exact Hg1 | exact Hzero].
Defined.

(** ** [User::updateBalance] *)

(** X9 — [updateBalance] adds the amount to the entry of the other user
    (0 when there is none) and erases the entry when the sum is below 0.01
    in absolute value; it touches no other entry, nor the id and the name,
    and a map without entries below 0.01 stays one. *)
Theorem updateBalance_threshold u otherUserId amount :
  let u' := User.updateBalance u otherUserId amount in
  let v := (default 0 (User.balances u !! otherUserId) + amount)%float in
  User.userId u' = User.userId u ∧ User.name u' = User.name u ∧
  User.balances u' !! otherUserId =
    (if (abs v <? epsilon)%float then None else Some v) ∧
  (∀ k, k ≠ otherUserId → User.balances u' !! k = User.balances u !! k) ∧
  (no_small_entry (User.balances u) → no_small_entry (User.balances u')).
Proof.
  simpl. unfold User.updateBalance. simpl.
  set (v := (default 0 (User.balances u !! otherUserId) + amount)%float).
  assert (∀ k, k ≠ otherUserId →
            (if (abs v <? epsilon)%float
             then delete otherUserId (<[otherUserId := v]> (User.balances u))
             else <[otherUserId := v]> (User.balances u)) !! k =
            User.balances u !! k) as Hother.
  { intros k Hk. destruct (abs v <? epsilon)%float.
    - by rewrite lookup_delete_ne, lookup_insert_ne.
    - by rewrite lookup_insert_ne. }
  split_and!; try done.
  - destruct (abs v <? epsilon)%float.
    + apply lookup_delete_eq.
    + apply lookup_insert_eq.
  - intros Hsmall k w.
    destruct (decide (k = otherUserId)) as [->|Hk].
    + destruct (abs v <? epsilon)%float eqn:Hv.
      * by rewrite lookup_delete_eq.
      * rewrite lookup_insert_eq. by intros [= <-].
    + rewrite Hother by done. apply Hsmall.
Qed.

Lemma updateBalance_threshold_witness :
  no_small_entry (User.balances user_a) ∧
  no_small_entry (User.balances (User.updateBalance user_a b 0.0078125)).
Proof.
  assert (no_small_entry (User.balances user_a)) as H.
  { intros k v Hk. simpl in Hk. discriminate Hk. }
  split; [exact H|].
  exact (proj2 (proj2 (proj2 (proj2
    (updateBalance_threshold user_a b 0.0078125)))) H).
Defined.

(** X10 — For a user with no entry for the other user and a finite [x],
    [updateBalance] with [x] followed by [updateBalance] with [-x] gives
    the user back unchanged: the entry is absent again. *)
Theorem updateBalance_round_trip u otherUserId x :
  User.balances u !! otherUserId = None → is_finite x = true →
  User.updateBalance (User.updateBalance u otherUserId x) otherUserId (- x) = u.
Proof.
  intros Hnone Hx. destruct u as [userId name balances]. simpl in Hnone.
  unfold User.updateBalance. simpl. f_equal.
  rewrite Hnone. simpl.
  destruct (abs (0 + x) <? epsilon)%float eqn:Hsmall.
  - rewrite delete_insert_id by done. rewrite Hnone. simpl.
    rewrite abs_zero_plus_opp, Hsmall.
    by rewrite delete_insert_id.
  - rewrite lookup_insert_eq. simpl.
    rewrite finite_plus_opp_small by done.
    rewrite insert_insert_eq. by rewrite delete_insert_id.
Qed.

Lemma updateBalance_round_trip_witness :
  User.balances user_a !! b = None ∧ is_finite 100 = true ∧
  User.updateBalance (User.updateBalance user_a b 100) b (-100) = user_a.
Proof.
  split; [reflexivity|]. split; [reflexivity|].
  apply (updateBalance_round_trip user_a b 100); reflexivity.
Defined.

(** ** The headers of the listing *)

Lemma member_headers_app out1 out2 :
  member_headers (out1 ++ out2) = member_headers out1 ++ member_headers out2.
Proof. apply omap_app. Qed.

Lemma member_headers_entries g (entries : list (string * double)) :
  member_headers (entries ≫= Group.show_entry g) = [].
Proof.
  induction entries as [|[otherId balance] entries IH]; [done|].
  rewrite bind_cons, member_headers_app, IH. unfold Group.show_entry.
  by destruct (0 <? balance)%float; [|destruct (balance <? 0)%float].
Qed.

Lemma member_headers_show_member g userId userBalances :
  member_headers (Group.show_member g (userId, userBalances)) =
  [Group.getUserName g userId].
Proof.
  unfold Group.show_member. cbn [member_headers omap list_omap].
  f_equal. change (omap _ ?l) with (member_headers l).
  rewrite member_headers_app, member_headers_entries.
  by case_decide.
Qed.

(** What is printed under the header of a row holds no header. *)
Lemma show_member_tail_no_header g r :
  Forall (λ l, ∀ userName, l ≠ LMember userName) (tail (Group.show_member g r)).
Proof.
  destruct r as [userId userBalances]. simpl. apply Forall_app. split.
  - case_decide; [|done]. by apply Forall_singleton.
  - apply Forall_forall. intros l Hl userName ->.
    apply list_elem_of_bind in Hl as ([otherId balance] & Hl & _).
    by apply show_entry_balance_line in Hl as [? _].
Qed.

Lemma show_member_cons g r :
  Group.show_member g r =
  LMember (Group.getUserName g r.1) :: tail (Group.show_member g r).
Proof. by destruct r. Qed.

Lemma until_header_app body rest :
  Forall (λ l, ∀ userName, l ≠ LMember userName) body →
  until_header (body ++ rest) = body ++ until_header rest.
Proof.
  induction 1 as [|l body Hl _ IH]; [done|]. simpl. rewrite IH.
  destruct l; try done. by destruct (Hl userName).
Qed.

Lemma sections_app body rest :
  Forall (λ l, ∀ userName, l ≠ LMember userName) body →
  sections (body ++ rest) = sections rest.
Proof.
  induction 1 as [|l body Hl _ IH]; [done|]. simpl. rewrite IH.
  destruct l; try done. by destruct (Hl userName).
Qed.

Lemma until_header_show_members g (rows : list (string * Row)) :
  until_header (rows ≫= Group.show_member g) = [].
Proof.
  destruct rows as [|r rows]; [done|].
  by rewrite bind_cons, show_member_cons.
Qed.

(** The listing of the rows, cut at its headers, is the list of the rows
    with what is printed under each. *)
Lemma sections_show_members g (rows : list (string * Row)) :
  sections (rows ≫= Group.show_member g) =
  (λ r, (Group.getUserName g r.1, tail (Group.show_member g r))) <$> rows.
Proof.
  induction rows as [|r rows IH]; [done|].
  rewrite bind_cons, fmap_cons, (show_member_cons g r).
  cbn [app sections].
  rewrite until_header_app, sections_app by apply show_member_tail_no_header.
  by rewrite until_header_show_members, app_nil_r, IH.
Qed.

Lemma sections_showBalances g :
  sections (Group.showBalances g) =
  (λ r, (Group.getUserName g r.1, tail (Group.show_member g r)))
    <$> in_order (Group.balances g).
Proof. unfold Group.showBalances. simpl. apply sections_show_members. Qed.

Lemma show_entry_nil g otherId balance :
  Group.show_entry g (otherId, balance) = [] ↔
  (0 <? balance)%float = false ∧ (balance <? 0)%float = false.
Proof.
  unfold Group.show_entry.
  destruct (0 <? balance)%float; [|destruct (balance <? 0)%float].
  all: split; [try done | intros [? ?]; try done].
Qed.

Lemma bind_nil_iff {A B} (f : A → list B) (l : list A) :
  l ≫= f = [] ↔ ∀ x, x ∈ l → f x = [].
Proof.
  induction l as [|x l IH].
  - split; [|done]. by intros _ y ?%elem_of_nil.
  - rewrite bind_cons. split.
    + intros [Hx Hl]%app_eq_nil y [->|Hy]%elem_of_cons; [done|].
      by apply IH.
    + intros H. rewrite (H x) by by left. simpl.
      apply IH. intros y Hy. apply H. by right.
Qed.

(** X11 — The listing prints one header per row of the matrix, with the
    name of the row's user, the rows being taken once each by increasing
    id; under the header of a row the listing has "No balances" exactly
    when the row is empty, and it has nothing at all exactly when the row
    is not empty and holds only amounts that are neither positive nor
    negative. *)
Theorem showBalances_headers g :
  member_headers (Group.showBalances g) =
    (λ r, Group.getUserName g r.1) <$> in_order (Group.balances g) ∧
  StronglySorted key_le (in_order (Group.balances g)) ∧
  NoDup (in_order (Group.balances g)).*1 ∧
  (∀ userId userBalances,
     (userId, userBalances) ∈ in_order (Group.balances g) ↔
     Group.balances g !! userId = Some userBalances) ∧
  Forall2
    (λ (r : string * Row) (section : string * list Line),
       section.1 = Group.getUserName g r.1 ∧
       (LNoBalances ∈ section.2 ↔ r.2 = ∅) ∧
       (section.2 = [] ↔
        r.2 ≠ ∅ ∧
        ∀ otherId balance, r.2 !! otherId = Some balance →
          (0 <? balance)%float = false ∧ (balance <? 0)%float = false))
    (in_order (Group.balances g))
    (sections (Group.showBalances g)).
Proof.
  split_and!.
  - unfold Group.showBalances. cbn [member_headers omap list_omap].
    change (omap _ ?l) with (member_headers l).
    induction (in_order (Group.balances g)) as [|[userId userBalances] rows IH];
      [done|].
    rewrite bind_cons, fmap_cons.
    rewrite member_headers_app, member_headers_show_member, IH. done.
  - apply in_order_sorted.
  - apply in_order_NoDup_keys.
  - intros userId userBalances. apply elem_of_in_order.
  - rewrite sections_showBalances. apply Forall2_fmap_r, Forall_Forall2_diag.
    apply Forall_forall. intros [userId userBalances] _. simpl.
    split_and!.
    + done.
    + rewrite elem_of_app. split.
      * intros [Hin|Hin].
        -- by case_decide; [|apply elem_of_nil in Hin].
        -- apply list_elem_of_bind in Hin as ([otherId balance] & Hin & _).
           by apply show_entry_balance_line in Hin as [? _].
      * intros ->. left. rewrite decide_True by done.
        by apply list_elem_of_singleton.
    + split.
      * intros [Hnb Hlines]%app_eq_nil.
        split; [by case_decide|].
        intros otherId balance Hentry. apply (show_entry_nil g otherId).
        apply (proj1 (bind_nil_iff _ _) Hlines).
        by apply elem_of_in_order.
      * intros [Hne Hzero]. rewrite decide_False by done. simpl.
        apply bind_nil_iff. intros [otherId balance] Hin%elem_of_in_order.
        apply (show_entry_nil g otherId balance). by apply (Hzero otherId).
Qed.

(** ** The facade *)

Lemma int_wrap_in_range z :
  (-2147483648 ≤ z ≤ INT_MAX)%Z → int_wrap z = z.
Proof.
  unfold int_wrap, INT_MAX. intros Hz.
  rewrite Z.mod_small by lia. lia.
Qed.

(** At [INT_MAX] the increment of a counter wraps to [INT_MIN]. *)
Lemma constructors_wrap_at_INT_MAX name :
  User.new INT_MAX name = (User.mk "user-2147483648" name ∅, -2147483648)%Z ∧
  Group.new INT_MAX name =
    (Group.mk "group-2147483648" name [] ∅, -2147483648)%Z.
Proof. split; reflexivity. Qed.

Lemma user_id_inj k1 k2 :
  "user" +:+ pretty k1 = "user" +:+ pretty k2 → k1 = k2 :> Z.
Proof. intros H. by apply (inj pretty), (inj (String.app "user")). Qed.

Lemma group_id_inj k1 k2 :
  "group" +:+ pretty k1 = "group" +:+ pretty k2 → k1 = k2 :> Z.
Proof. intros H. by apply (inj pretty), (inj (String.app "group")). Qed.

Lemma createUser_inv name s user s' out :
  Splitwise.createUser name s = Some (user, s', out) →
  user = User.mk ("user" +:+ pretty (int_wrap (Splitwise.nextUserId s + 1)))
           name ∅ ∧
  s' = Splitwise.mk (<[User.userId user := user]> (Splitwise.users s))
         (Splitwise.groups s) (int_wrap (Splitwise.nextUserId s + 1))
         (Splitwise.nextGroupId s) ∧
  out = [LUserCreated name (User.userId user)].
Proof. unfold Splitwise.createUser. simpl. by intros [= <- <- <-]. Qed.

Lemma createGroup_inv name s group s' out :
  Splitwise.createGroup name s = Some (group, s', out) →
  group = Group.mk ("group" +:+ pretty (int_wrap (Splitwise.nextGroupId s + 1)))
            name [] ∅ ∧
  s' = Splitwise.mk (Splitwise.users s)
         (<[Group.groupId group := group]> (Splitwise.groups s))
         (Splitwise.nextUserId s) (int_wrap (Splitwise.nextGroupId s + 1)) ∧
  out = [LGroupCreated name (Group.groupId group)].
Proof. unfold Splitwise.createGroup. simpl. by intros [= <- <- <-]. Qed.

(** A call that names a group either finds it and puts a successor of it
    back under the same id, or changes nothing. *)
Lemma addUserToGroup_inv userId groupId s s' out :
  Splitwise.addUserToGroup userId groupId s = Some (tt, s', out) →
  (s' = s ∧ out = [LNotFound] ∧
   (Splitwise.users s !! userId = None ∨ Splitwise.groups s !! groupId = None)) ∨
  (∃ user group,
     Splitwise.users s !! userId = Some user ∧
     Splitwise.groups s !! groupId = Some group ∧
     s' = Splitwise.set_group s groupId (Group.addMember group user).1 ∧
     out = (Group.addMember group user).2).
Proof.
  unfold Splitwise.addUserToGroup.
  destruct (Splitwise.users s !! userId) as [user|] eqn:Hu;
    [destruct (Splitwise.groups s !! groupId) as [group|] eqn:Hg|].
  - intros [= <- <-]. right. by exists user, group.
  - intros [= <- <-]. left. auto.
  - intros [= <- <-]. left. auto.
Qed.

Lemma facade_addExpense_inv groupId desc amount paidBy users type values s s' out :
  Splitwise.addExpense groupId desc amount paidBy users type values s =
    Some (tt, s', out) →
  (s' = s ∧ out = [LGroupNotFound] ∧ Splitwise.groups s !! groupId = None) ∨
  (∃ group group',
     Splitwise.groups s !! groupId = Some group ∧
     Group.addExpense group desc amount paidBy users type values =
       Some (group', out) ∧
     s' = Splitwise.set_group s groupId group').
Proof.
  unfold Splitwise.addExpense.
  destruct (Splitwise.groups s !! groupId) as [group|] eqn:Hg.
  - destruct (Group.addExpense group desc amount paidBy users type values)
      as [[group' out']|] eqn:Hadd; simpl; [|done].
    intros [= <- <-]. right. by exists group, group'.
  - intros [= <- <-]. by left.
Qed.

Lemma facade_settlePayment_inv groupId fromUserId toUserId amount s s' out :
  Splitwise.settlePayment groupId fromUserId toUserId amount s =
    Some (tt, s', out) →
  (s' = s ∧ out = [LGroupNotFound] ∧ Splitwise.groups s !! groupId = None) ∨
  (∃ group,
     Splitwise.groups s !! groupId = Some group ∧
     s' = Splitwise.set_group s groupId
            (Group.settlePayment group fromUserId toUserId amount).1 ∧
     out = (Group.settlePayment group fromUserId toUserId amount).2).
Proof.
  unfold Splitwise.settlePayment.
  destruct (Splitwise.groups s !! groupId) as [group|] eqn:Hg.
  - destruct (Group.settlePayment group fromUserId toUserId amount)
      as [group' out'] eqn:Hsettle.
    intros [= <- <-]. right. exists group. by rewrite Hsettle.
  - intros [= <- <-]. by left.
Qed.

Lemma showGroupBalances_inv groupId s s' out :
  Splitwise.showGroupBalances groupId s = Some (tt, s', out) → s' = s.
Proof.
  unfold Splitwise.showGroupBalances.
  by destruct (Splitwise.groups s !! groupId); intros [= <- <-].
Qed.

Lemma lookup_set_group s groupId g id :
  Splitwise.groups (Splitwise.set_group s groupId g) !! id =
  if decide (groupId = id) then Some g else Splitwise.groups s !! id.
Proof. simpl. apply lookup_insert. Qed.

(** Below [INT_MAX] the next user id is not in use, as long as the ids in
    use are those issued so far. *)
Lemma next_user_id_fresh s :
  ids_issued s → (Splitwise.nextUserId s < INT_MAX)%Z →
  Splitwise.users s !! ("user" +:+ pretty (int_wrap (Splitwise.nextUserId s + 1)))
    = None.
Proof.
  intros (Hnu & _ & Hu & _) Hmax. apply eq_None_not_Some. intros [user Huser].
  destruct (Hu _ _ Huser) as (_ & k & Hk & Heq).
  apply user_id_inj in Heq. rewrite int_wrap_in_range in Heq by lia. lia.
Qed.

Lemma next_group_id_fresh s :
  ids_issued s → (Splitwise.nextGroupId s < INT_MAX)%Z →
  Splitwise.groups s !! ("group" +:+ pretty (int_wrap (Splitwise.nextGroupId s + 1)))
    = None.
Proof.
  intros (_ & Hng & _ & Hg) Hmax. apply eq_None_not_Some. intros [group Hgroup].
  destruct (Hg _ _ Hgroup) as (_ & k & Hk & Heq).
  apply group_id_inj in Heq. rewrite int_wrap_in_range in Heq by lia. lia.
Qed.

(** Putting back, under its id, a group with the id it had keeps the ids
    in order. *)
Lemma ids_issued_set_group s groupId group group' :
  ids_issued s →
  Splitwise.groups s !! groupId = Some group →
  Group.groupId group' = Group.groupId group →
  ids_issued (Splitwise.set_group s groupId group').
Proof.
  intros (Hnu & Hng & Hu & Hg) Hgroup Hid.
  refine (conj Hnu (conj Hng (conj Hu _))).
  intros id g0. rewrite lookup_set_group. case_decide as Heq.
  - intros [= <-]. subst id. rewrite Hid. by apply Hg.
  - apply Hg.
Qed.

Lemma facade_ids_issued s : facade_reachable s → ids_issued s.
Proof.
  induction 1 as [| s name user s' out _ IH Hmax Hstep
                 | s name group s' out _ IH Hmax Hstep
                 | s userId groupId s' out _ IH Hstep
                 | s groupId desc amount paidBy users type values s' out _ IH Hstep
                 | s groupId fromUserId toUserId amount s' out _ IH Hstep
                 | s groupId s' out _ IH Hstep].
  - refine (conj _ (conj _ (conj _ _))); simpl.
    + unfold INT_MAX. lia.
    + unfold INT_MAX. lia.
    + intros id x. by rewrite lookup_empty.
    + intros id x. by rewrite lookup_empty.
  - apply createUser_inv in Hstep as (-> & -> & _).
    destruct IH as (Hnu & Hng & Hu & Hg).
    rewrite int_wrap_in_range by lia.
    refine (conj _ (conj Hng (conj _ Hg))); simpl; [lia|].
    intros id user. rewrite lookup_insert. case_decide as Heq.
    + intros [= <-]. split; [done|].
      exists (Splitwise.nextUserId s + 1)%Z. split; [lia|done].
    + intros (? & k & ? & ?)%Hu. split; [done|]. exists k. split; [lia|done].
  - apply createGroup_inv in Hstep as (-> & -> & _).
    destruct IH as (Hnu & Hng & Hu & Hg).
    rewrite int_wrap_in_range by lia.
    refine (conj Hnu (conj _ (conj Hu _))); simpl; [lia|].
    intros id group. rewrite lookup_insert. case_decide as Heq.
    + intros [= <-]. split; [done|].
      exists (Splitwise.nextGroupId s + 1)%Z. split; [lia|done].
    + intros (? & k & ? & ?)%Hg. split; [done|]. exists k. split; [lia|done].
  - apply addUserToGroup_inv in Hstep
      as [(-> & _)|(user & group & _ & Hgroup & -> & _)]; [done|].
    by apply (ids_issued_set_group s groupId group).
  - apply facade_addExpense_inv in Hstep
      as [(-> & _)|(group & group' & Hgroup & Hadd & ->)]; [done|].
    apply (ids_issued_set_group s groupId group); [done..|].
    by apply addExpense_inv in Hadd as [[-> _]|(_ & _ & ? & _ & _ & -> & _)].
  - apply facade_settlePayment_inv in Hstep
      as [(-> & _)|(group & Hgroup & -> & _)]; [done|].
    apply (ids_issued_set_group s groupId group); [done..|].
    by destruct (settlePayment_inv group fromUserId toUserId amount)
      as [->|(_ & _ & ->)].
  - by apply showGroupBalances_inv in Hstep as ->.
Qed.

Lemma members_registered_set_group s groupId group' :
  members_registered s →
  (∀ user, user ∈ Group.members group' →
           Splitwise.users s !! User.userId user = Some user) →
  members_registered (Splitwise.set_group s groupId group').
Proof.
  intros Hs Hnew id g0 user. rewrite lookup_set_group. case_decide.
  - intros [= <-]. apply Hnew.
  - apply Hs.
Qed.

Lemma facade_members_registered s : facade_reachable s → members_registered s.
Proof.
  induction 1 as [| s name user s' out Hs IH Hmax Hstep
                 | s name group s' out Hs IH Hmax Hstep
                 | s userId groupId s' out Hs IH Hstep
                 | s groupId desc amount paidBy users type values s' out Hs IH Hstep
                 | s groupId fromUserId toUserId amount s' out Hs IH Hstep
                 | s groupId s' out Hs IH Hstep].
  - intros id group user Hgroup. simpl in Hgroup.
    by rewrite lookup_empty in Hgroup.
  - apply facade_ids_issued in Hs as Hids.
    apply createUser_inv in Hstep as (-> & -> & _).
    intros id group user Hgroup Hin. simpl in *.
    specialize (IH id group user Hgroup Hin).
    rewrite lookup_insert_ne; [done|].
    intros Heq. rewrite <- Heq, next_user_id_fresh in IH by done. done.
  - apply createGroup_inv in Hstep as (-> & -> & _).
    intros id group user. simpl. rewrite lookup_insert. case_decide.
    + intros [= <-]. simpl. by intros ?%elem_of_nil.
    + apply IH.
  - apply facade_ids_issued in Hs as (_ & _ & Hu & _).
    apply addUserToGroup_inv in Hstep
      as [(-> & _)|(user & group & Huser & Hgroup & -> & _)]; [done|].
    apply members_registered_set_group; [done|].
    intros u. simpl. rewrite elem_of_app, list_elem_of_singleton.
    intros [Hin| ->].
    + by apply (IH groupId group).
    + by destruct (Hu _ _ Huser) as [-> _].
  - apply facade_addExpense_inv in Hstep
      as [(-> & _)|(group & group' & Hgroup & Hadd & ->)]; [done|].
    apply members_registered_set_group; [done|].
    assert (Group.members group' = Group.members group) as ->.
    { by apply addExpense_inv in Hadd
        as [[-> _]|(_ & _ & ? & _ & _ & -> & _)]. }
    intros u. by apply (IH groupId group).
  - apply facade_settlePayment_inv in Hstep
      as [(-> & _)|(group & Hgroup & -> & _)]; [done|].
    apply members_registered_set_group; [done|].
    assert (Group.members (Group.settlePayment group fromUserId toUserId amount).1
            = Group.members group) as ->.
    { by destruct (settlePayment_inv group fromUserId toUserId amount)
        as [->|(_ & _ & ->)]. }
    intros u. by apply (IH groupId group).
  - by apply showGroupBalances_inv in Hstep as ->.
Qed.

Lemma facade_groups_reachable s id group :
  facade_reachable s → Splitwise.groups s !! id = Some group → reachable group.
Proof.
  intros Hs. revert id group.
  induction Hs as [| s name user s' out Hs IH Hmax Hstep
                 | s name group s' out Hs IH Hmax Hstep
                 | s userId groupId s' out Hs IH Hstep
                 | s groupId desc amount paidBy users type values s' out Hs IH Hstep
                 | s groupId fromUserId toUserId amount s' out Hs IH Hstep
                 | s groupId s' out Hs IH Hstep]; intros id g0.
  - simpl. by rewrite lookup_empty.
  - apply createUser_inv in Hstep as (-> & -> & _). apply IH.
  - apply createGroup_inv in Hstep as (-> & -> & _).
    simpl. rewrite lookup_insert. case_decide; [|apply IH].
    intros [= <-]. apply (reach_new _ (Splitwise.nextGroupId s) name).
  - apply addUserToGroup_inv in Hstep
      as [(-> & _)|(user & group & _ & Hgroup & -> & _)]; [apply IH|].
    rewrite lookup_set_group. case_decide; [|apply IH].
    intros [= <-]. apply reach_addMember; [by eapply IH|done].
  - apply facade_addExpense_inv in Hstep
      as [(-> & _)|(group & group' & Hgroup & Hadd & ->)]; [apply IH|].
    rewrite lookup_set_group. case_decide; [|apply IH].
    intros [= <-]. eapply reach_addExpense; [by eapply IH|done].
  - apply facade_settlePayment_inv in Hstep
      as [(-> & _)|(group & Hgroup & -> & _)]; [apply IH|].
    rewrite lookup_set_group. case_decide; [|apply IH].
    intros [= <-]. apply reach_settlePayment. by eapply IH.
  - apply showGroupBalances_inv in Hstep as ->. apply IH.
Qed.

(** The run of [main] up to the Lunch expense, call by call. *)
Lemma facade_lunch_reachable : facade_reachable facade_lunch.
Proof.
  pose proof facade_init as H0.
  pose proof (facade_createUser _ "Aditya" _ _ _ H0 eq_refl eq_refl) as H1.
  pose proof (facade_createUser _ "Rohit" _ _ _ H1 eq_refl eq_refl) as H2.
  pose proof (facade_createUser _ "Manish" _ _ _ H2 eq_refl eq_refl) as H3.
  pose proof (facade_createUser _ "Saurav" _ _ _ H3 eq_refl eq_refl) as H4.
  pose proof (facade_createGroup _ "Hostel Expenses" _ _ _ H4 eq_refl eq_refl)
    as H5.
  pose proof (facade_addUserToGroup _ "user1" "group1" _ _ H5 eq_refl) as H6.
  pose proof (facade_addUserToGroup _ "user2" "group1" _ _ H6 eq_refl) as H7.
  pose proof (facade_addUserToGroup _ "user3" "group1" _ _ H7 eq_refl) as H8.
  pose proof (facade_addUserToGroup _ "user4" "group1" _ _ H8 eq_refl) as H9.
  exact (facade_addExpense _ "group1" "Lunch" 800 "user1"
           ["user1"; "user2"; "user3"; "user4"] EQUAL [] _ _ H9 eq_refl).
Qed.

Lemma same_but_group_refl groupId s : same_but_group groupId s s.
Proof. by split_and!. Qed.

Lemma same_but_group_set_group groupId s group group' :
  Splitwise.groups s !! groupId = Some group →
  same_but_group groupId s (Splitwise.set_group s groupId group').
Proof.
  intros Hgroup. split_and!; try done.
  - intros id Hid. rewrite lookup_set_group. by rewrite decide_False.
  - rewrite lookup_set_group, decide_True by done. rewrite Hgroup.
    split; eauto.
Qed.

(** X12 — A call of the facade that names a group changes nothing but the
    group stored under that id: the users, the two counters and all other
    groups are as before, and no group appears or disappears.  When the
    group id is unknown (for [addUserToGroup]: the group id or the user id)
    the state is unchanged and the call only prints its not-found line;
    [showGroupBalances] never changes the state. *)
Theorem facade_group_calls_local s groupId :
  (∀ desc amount paidBy users type values s' out,
     Splitwise.addExpense groupId desc amount paidBy users type values s =
       Some (tt, s', out) →
     same_but_group groupId s s' ∧
     (Splitwise.groups s !! groupId = None → s' = s ∧ out = [LGroupNotFound])) ∧
  (∀ fromUserId toUserId amount s' out,
     Splitwise.settlePayment groupId fromUserId toUserId amount s =
       Some (tt, s', out) →
     same_but_group groupId s s' ∧
     (Splitwise.groups s !! groupId = None → s' = s ∧ out = [LGroupNotFound])) ∧
  (∀ userId s' out,
     Splitwise.addUserToGroup userId groupId s = Some (tt, s', out) →
     same_but_group groupId s s' ∧
     (Splitwise.users s !! userId = None ∨ Splitwise.groups s !! groupId = None →
      s' = s ∧ out = [LNotFound])) ∧
  (∀ s' out,
     Splitwise.showGroupBalances groupId s = Some (tt, s', out) →
     s' = s ∧
     (Splitwise.groups s !! groupId = None → out = [LGroupNotFound])).
Proof.
  split_and!.
  - intros desc amount paidBy users type values s' out
      [(-> & -> & _)|(group & group' & Hgroup & _ & ->)]%facade_addExpense_inv.
    + split; [apply same_but_group_refl|done].
    + split; [by eapply same_but_group_set_group|]. by rewrite Hgroup.
  - intros fromUserId toUserId amount s' out
      [(-> & -> & _)|(group & Hgroup & -> & _)]%facade_settlePayment_inv.
    + split; [apply same_but_group_refl|done].
    + split; [by eapply same_but_group_set_group|]. by rewrite Hgroup.
  - intros userId s' out
      [(-> & -> & _)|(user & group & Huser & Hgroup & -> & _)]%addUserToGroup_inv.
    + split; [apply same_but_group_refl|done].
    + split; [by eapply same_but_group_set_group|].
      rewrite Huser, Hgroup. by intros [?|?].
  - intros s' out Hshow. split; [by eapply showGroupBalances_inv|].
    unfold Splitwise.showGroupBalances in Hshow. intros Hnone.
    rewrite Hnone in Hshow. by injection Hshow as <- <-.
Qed.

Lemma facade_group_calls_local_witness :
  Splitwise.groups facade_lunch !! "group7" = None ∧
  Splitwise.settlePayment "group7" "user1" "user2" 10 facade_lunch =
    Some (tt, facade_lunch, [LGroupNotFound]) ∧
  same_but_group "group7" facade_lunch facade_lunch.
Proof.
  assert (Splitwise.settlePayment "group7" "user1" "user2" 10 facade_lunch =
            Some (tt, facade_lunch, [LGroupNotFound])) as H.
  { vm_compute. reflexivity. }
  split; [reflexivity|]. split; [exact H|].
  exact (proj1 (proj1 (proj2 (facade_group_calls_local facade_lunch "group7"))
                  "user1" "user2" 10%float facade_lunch [LGroupNotFound] H)).
Defined.

(** X13 — In every state of the facade (reached by calls that return,
    with no id counter incremented at [INT_MAX]): each user and each group
    is stored under its own id, both counters are between 0 and [INT_MAX]
    and every id in use is made of a number between 1 and its counter; the
    members of every group are users of the registry, and so is every id
    that has a row in the group's matrix; and every group is a group
    reached by the public operations of [Group]. *)
Theorem facade_invariants s :
  facade_reachable s →
  ids_issued s ∧
  members_registered s ∧
  (∀ id group, Splitwise.groups s !! id = Some group →
     reachable group ∧
     ∀ x, Group.isMember group x = true → is_Some (Splitwise.users s !! x)).
Proof.
  intros Hs. split_and!.
  - by apply facade_ids_issued.
  - by apply facade_members_registered.
  - intros id group Hgroup.
    assert (reachable group) as Hg by (by eapply facade_groups_reachable).
    split; [done|]. intros x Hx.
    apply (reachable_with_rows _ _ Hg), list_elem_of_fmap in Hx
      as (user & -> & Hin).
    exists user. by eapply facade_members_registered.
Qed.

Lemma facade_invariants_witness :
  facade_reachable facade_lunch ∧
  members_registered facade_lunch ∧
  ∃ group, Splitwise.groups facade_lunch !! "group1" = Some group ∧
           reachable group.
Proof.
  split; [exact facade_lunch_reachable|].
  split; [exact (proj1 (proj2 (facade_invariants facade_lunch
                                 facade_lunch_reachable)))|].
  eexists. split; [vm_compute; reflexivity|].
  refine (proj1 (proj2 (proj2 (facade_invariants facade_lunch
                                 facade_lunch_reachable)) "group1" _ _)).
  vm_compute. reflexivity.
Defined.

(** X14 — In every state of the facade, [createUser] called with the user
    counter below [INT_MAX], and [createGroup] called with the group
    counter below [INT_MAX], hand out the id made of the counter plus one,
    which is not in use: the new user (with the given name and no
    balances) and the new group (with the given name, no member and an
    empty matrix) are stored under it, and every user and group stored
    before is still there, unchanged. *)
Theorem facade_create_fresh s name :
  facade_reachable s →
  ((Splitwise.nextUserId s < INT_MAX)%Z →
   ∀ user s' out,
     Splitwise.createUser name s = Some (user, s', out) →
     User.userId user = "user" +:+ pretty (Splitwise.nextUserId s + 1)%Z ∧
     Splitwise.nextUserId s' = (Splitwise.nextUserId s + 1)%Z ∧
     Splitwise.users s !! User.userId user = None ∧
     Splitwise.users s' !! User.userId user = Some user ∧
     User.name user = name ∧ User.balances user = ∅ ∧
     (∀ id u, Splitwise.users s !! id = Some u →
              Splitwise.users s' !! id = Some u) ∧
     Splitwise.groups s' = Splitwise.groups s) ∧
  ((Splitwise.nextGroupId s < INT_MAX)%Z →
   ∀ group s' out,
     Splitwise.createGroup name s = Some (group, s', out) →
     Group.groupId group = "group" +:+ pretty (Splitwise.nextGroupId s + 1)%Z ∧
     Splitwise.nextGroupId s' = (Splitwise.nextGroupId s + 1)%Z ∧
     Splitwise.groups s !! Group.groupId group = None ∧
     Splitwise.groups s' !! Group.groupId group = Some group ∧
     Group.name group = name ∧ Group.members group = [] ∧
     Group.balances group = ∅ ∧
     (∀ id g, Splitwise.groups s !! id = Some g →
              Splitwise.groups s' !! id = Some g) ∧
     Splitwise.users s' = Splitwise.users s).
Proof.
  intros Hids%facade_ids_issued. split.
  - intros Hmax user s' out (-> & -> & _)%createUser_inv. simpl.
    pose proof (next_user_id_fresh s Hids Hmax) as Hfresh.
    destruct Hids as (Hnu & _).
    rewrite int_wrap_in_range in Hfresh |- * by lia.
    split_and!; try done.
    + apply lookup_insert_eq.
    + intros id u Hu. rewrite lookup_insert_ne; [done|].
      intros <-. congruence.
  - intros Hmax group s' out (-> & -> & _)%createGroup_inv. simpl.
    pose proof (next_group_id_fresh s Hids Hmax) as Hfresh.
    destruct Hids as (_ & Hng & _).
    rewrite int_wrap_in_range in Hfresh |- * by lia.
    split_and!; try done.
    + apply lookup_insert_eq.
    + intros id g Hg. rewrite lookup_insert_ne; [done|].
      intros <-. congruence.
Qed.

Lemma facade_create_fresh_witness :
  facade_reachable facade_lunch ∧
  (Splitwise.nextUserId facade_lunch < INT_MAX)%Z ∧
  ∃ user s' out,
    Splitwise.createUser "Eve" facade_lunch = Some (user, s', out) ∧
    User.userId user = "user5" ∧
    Splitwise.users facade_lunch !! User.userId user = None.
Proof.
  assert (Splitwise.nextUserId facade_lunch < INT_MAX)%Z as Hmax
    by reflexivity.
  split; [exact facade_lunch_reachable|]. split; [exact Hmax|].
  destruct (Splitwise.createUser "Eve" facade_lunch)
    as [[[user s'] out]|] eqn:Hcreate.
  - exists user, s', out. split; [reflexivity|].
    destruct (proj1 (facade_create_fresh facade_lunch "Eve"
                       facade_lunch_reachable) Hmax user s' out Hcreate)
      as (Hid & _ & Hfresh & _).
    split; [exact Hid | exact Hfresh].
  - vm_compute in Hcreate. discriminate Hcreate.
Defined.

(** ** When [addExpense] reads outside [values] *)

(** X15 — [addExpense] reads outside [values] exactly when the payer and
    all listed users are members, the policy is EXACT or PERCENTAGE and
    [values] is shorter than the list of users; so a call with policy
    EQUAL, and a call that is turned down for its users, always returns,
    whatever [values] is. *)
Theorem addExpense_undefined_iff g desc amount paidBy users type values :
  Group.addExpense g desc amount paidBy users type values = None ↔
  Group.isMember g paidBy = true ∧
  (∀ u, u ∈ users → Group.isMember g u = true) ∧
  type ≠ EQUAL ∧ length values < length users.
Proof.
  split.
  - intros Hnone. unfold Group.addExpense in Hnone.
    destruct (negb _ || negb _) eqn:Hguard; [done|].
    apply addExpense_guard in Hguard as [Hp Hu].
    destruct (Group.make_splits amount users type values) eqn:Hs; [done|].
    by apply make_splits_None in Hs as [? ?].
  - intros (Hp & Hu & Htype & Hlen).
    rewrite addExpense_accepted by done.
    by rewrite (proj2 (make_splits_None amount users type values)).
Qed.

(** ** The two lines of a debt *)

Lemma mirrored_positive x y :
  mirrored x y → (0 <? x)%float = true →
  (y <? 0)%float = true ∧ abs y = x.
Proof.
  unfold mirrored. intros Hxy Hpos. split.
  - rewrite FloatAxioms.ltb_spec in Hpos |- *.
    change (Prim2SF 0) with (S754_zero false) in *.
    destruct (Prim2SF x) as [sx|sx| |sx mx ex],
             (Prim2SF y) as [sy|sy| |sy my ey]; simpl in Hxy; try done.
    + subst. by destruct sx.
    + destruct Hxy as (-> & _ & _). by destruct sx.
  - apply Prim2SF_inj. rewrite FloatAxioms.abs_spec.
    rewrite FloatAxioms.ltb_spec in Hpos.
    change (Prim2SF 0) with (S754_zero false) in *.
    destruct (Prim2SF x) as [sx|sx| |sx mx ex],
             (Prim2SF y) as [sy|sy| |sy my ey]; simpl in Hxy; try done.
    + subst. by destruct sx.
    + destruct Hxy as (-> & -> & ->). by destruct sx.
Qed.

(** X16 — In a group where no user was added twice the listing tells a
    debt from both sides: when the row of [A] holds a positive amount [v]
    for another user [B], the row of [B] holds for [A] a negative amount
    of absolute value [v]; in the listing of [showBalances], the section
    printed for the row of [A] has the line that [B] owes [v], and the
    section printed for the row of [B] has the line that [B] owes [A] the
    same [v]. *)
Theorem listing_tells_both_sides g A B v :
  reachable_fresh g → A ≠ B →
  stored (Group.balances g) A B = Some v → (0 <? v)%float = true →
  ∃ i j rowA rowB w linesA linesB,
    in_order (Group.balances g) !! i = Some (A, rowA) ∧
    in_order (Group.balances g) !! j = Some (B, rowB) ∧
    rowB !! A = Some w ∧ (w <? 0)%float = true ∧ abs w = v ∧
    sections (Group.showBalances g) !! i =
      Some (Group.getUserName g A, linesA) ∧
    LOwes (Group.getUserName g B) v ∈ linesA ∧
    sections (Group.showBalances g) !! j =
      Some (Group.getUserName g B, linesB) ∧
    LOwesTo (Group.getUserName g A) v ∈ linesB.
Proof.
  intros Hg HAB Hv Hpos.
  pose proof (reachable_fresh_antisymmetric g Hg A B HAB) as Hmir.
  rewrite (at2_stored _ A B), Hv in Hmir. simpl in Hmir.
  destruct (mirrored_positive _ _ Hmir Hpos) as [Hneg Habs].
  unfold stored in Hv.
  destruct (Group.balances g !! A) as [rowA|] eqn:HrowA; [|done].
  simpl in Hv.
  assert (stored (Group.balances g) B A = Some (at2 (Group.balances g) B A))
    as Hw.
  { rewrite at2_stored in Hneg |- *.
    destruct (stored (Group.balances g) B A); [done|].
    by vm_compute in Hneg. }
  set (w := at2 (Group.balances g) B A) in *.
  unfold stored in Hw.
  destruct (Group.balances g !! B) as [rowB|] eqn:HrowB; [|done].
  simpl in Hw.
  apply elem_of_in_order, list_elem_of_lookup_1 in HrowA as [i Hi].
  apply elem_of_in_order, list_elem_of_lookup_1 in HrowB as [j Hj].
  exists i, j, rowA, rowB, w,
    (tail (Group.show_member g (A, rowA))),
    (tail (Group.show_member g (B, rowB))).
  rewrite sections_showBalances, !list_lookup_fmap, Hi, Hj.
  split_and!; try done.
  - simpl. apply elem_of_app. right.
    apply list_elem_of_bind. exists (B, v).
    split; [|by apply elem_of_in_order].
    unfold Group.show_entry. rewrite Hpos. by apply list_elem_of_singleton.
  - simpl. apply elem_of_app. right.
    apply list_elem_of_bind. exists (A, w).
    split; [|by apply elem_of_in_order].
    unfold Group.show_entry.
    rewrite (negative_not_positive _ Hneg), Hneg, Habs.
    by apply list_elem_of_singleton.
Qed.

Lemma listing_tells_both_sides_witness :
  reachable_fresh group_ab_paid ∧ a ≠ b ∧
  stored (Group.balances group_ab_paid) a b = Some 100%float ∧
  (0 <? 100)%float = true ∧
  ∃ i j rowA rowB w linesA linesB,
    in_order (Group.balances group_ab_paid) !! i = Some (a, rowA) ∧
    in_order (Group.balances group_ab_paid) !! j = Some (b, rowB) ∧
    rowB !! a = Some w ∧ (w <? 0)%float = true ∧ abs w = 100%float ∧
    sections (Group.showBalances group_ab_paid) !! i =
      Some (Group.getUserName group_ab_paid a, linesA) ∧
    LOwes (Group.getUserName group_ab_paid b) 100 ∈ linesA ∧
    sections (Group.showBalances group_ab_paid) !! j =
      Some (Group.getUserName group_ab_paid b, linesB) ∧
    LOwesTo (Group.getUserName group_ab_paid a) 100 ∈ linesB.
Proof.
  assert (reachable_fresh group_ab_paid) as Hg.
  { apply (reach_addExpense _ group_ab "Taxi" 100 a [b] EQUAL []
             group_ab_paid [LExpenseAdded "Taxi" 100 "a"]).
    - apply reach_addMember; [|reflexivity].
      apply reach_addMember; [|reflexivity].
      apply reach_new.
    - vm_compute. reflexivity. }
  split; [exact Hg|]. split; [discriminate|]. split; [reflexivity|].
  split; [reflexivity|].
  apply (listing_tells_both_sides group_ab_paid a b 100 Hg).
  - discriminate.
  - reflexivity.
  - reflexivity.
Defined.
